(** * Pricing calculator: draft, autosave and upsert engine of [src/App.tsx]

    A shallow embedding of the autosave variant of the application
    (the second program of [src/App.tsx]) and of the helpers it shares
    with the manual-save variant.

    - A JavaScript [number] is an IEEE 754 binary64 value: the Standard
      Library's [spec_float] with precision 53 and maximal exponent 1024.
    - A JavaScript string is a sequence of code units; the model covers the
      code units below 256.
    - React state and refs are fields of one record, event handlers are
      state transformers, and timers are explicit fields of that record. *)

From Stdlib Require Import SpecFloat Ascii.
From stdpp Require Import base strings list gmap pretty.

(** ** Numbers *)

Module Num.

Definition number : Type := spec_float.

Definition prec : Z := 53.
Definition emax : Z := 1024.

Definition add : number → number → number := SFadd prec emax.
Definition mul : number → number → number := SFmul prec emax.

Definition NaN : number := S754_nan.
Definition Infinity : number := S754_infinity false.
Definition zero : number := S754_zero false.
Definition negzero : number := S754_zero true.

(** The literals [0.2], [0.25] and [0.3], rounded to binary64. *)
Definition n0_2 : number := S754_finite false 7205759403792794 (-55).
Definition n0_25 : number := S754_finite false 4503599627370496 (-54).
Definition n0_3 : number := S754_finite false 5404319552844595 (-54).

(** Small integers, exactly representable. *)
Definition of_pos (p : positive) : number :=
  binary_normalize prec emax (Z.pos p) 0 false.

(** [x === y] on numbers. *)
Definition strict_eq (x y : number) : bool := SFeqb x y.

(** [SameValueZero], the comparison of [Array.prototype.includes]. *)
Definition SameValueZero (x y : number) : bool :=
  match x, y with
  | S754_nan, S754_nan => true
  | _, _ => SFeqb x y
  end.

(** [ToBoolean] on a number: [0], [-0] and [NaN] are falsy. *)
Definition truthy (x : number) : bool :=
  match x with
  | S754_zero _ | S754_nan => false
  | _ => true
  end.

(** [Number.isFinite]. *)
Definition isFinite (x : number) : bool :=
  match x with
  | S754_zero _ | S754_finite _ _ _ => true
  | _ => false
  end.

(** [x < 0]. *)
Definition negative (x : number) : bool := SFltb x zero.

(** [Math.max(x, y)]: NaN if either argument is NaN, and [+0] is larger
    than [-0]. *)
Definition Math_max (x y : number) : number :=
  match SFcompare x y with
  | None => NaN
  | Some Lt => y
  | Some Gt => x
  | Some Eq => match x with S754_zero true => y | _ => x end
  end.

End Num.
Export Num.

(** ** Items *)

Record Item : Type := mkItem {
  id : string;
  name : string;
  quantity : number;
  pricePerItem : number;
  setupFee : number;
  shipping : number;
  profitPercent : number
}.

Inductive NumericField : Type :=
  | Fquantity | FpricePerItem | FsetupFee | Fshipping.

Definition PROFIT_OPTIONS : list number := [n0_2; n0_25; n0_3].

(** [PROFIT_OPTIONS.includes(x)]. *)
Definition includes (l : list number) (x : number) : bool :=
  existsb (fun y => SameValueZero y x) l.

Definition createEmptyItem : Item :=
  {| id := ""; name := "Untitled"; quantity := zero; pricePerItem := zero;
     setupFee := zero; shipping := zero; profitPercent := n0_2 |}.

(** Object spread with one overridden property: [{ ...item, field: v }]. *)
Definition with_id (v : string) (i : Item) : Item :=
  mkItem v (name i) (quantity i) (pricePerItem i) (setupFee i) (shipping i)
         (profitPercent i).

Definition with_name (v : string) (i : Item) : Item :=
  mkItem (id i) v (quantity i) (pricePerItem i) (setupFee i) (shipping i)
         (profitPercent i).

Definition with_profitPercent (v : number) (i : Item) : Item :=
  mkItem (id i) (name i) (quantity i) (pricePerItem i) (setupFee i) (shipping i) v.

Definition get_field (f : NumericField) (i : Item) : number :=
  match f with
  | Fquantity => quantity i
  | FpricePerItem => pricePerItem i
  | FsetupFee => setupFee i
  | Fshipping => shipping i
  end.

Definition with_field (f : NumericField) (v : number) (i : Item) : Item :=
  match f with
  | Fquantity =>
      mkItem (id i) (name i) v (pricePerItem i) (setupFee i) (shipping i)
             (profitPercent i)
  | FpricePerItem =>
      mkItem (id i) (name i) (quantity i) v (setupFee i) (shipping i)
             (profitPercent i)
  | FsetupFee =>
      mkItem (id i) (name i) (quantity i) (pricePerItem i) v (shipping i)
             (profitPercent i)
  | Fshipping =>
      mkItem (id i) (name i) (quantity i) (pricePerItem i) (setupFee i) v
             (profitPercent i)
  end.

(** ** Pricing calculator *)

Record Totals : Type := mkTotals {
  subtotal : number;
  profitValue : number;
  total : number
}.

Definition calculateTotals (item : Item) : Totals :=
  let qty := Math_max zero (quantity item) in
  let perItem := Math_max zero (pricePerItem item) in
  let setup := Math_max zero (setupFee item) in
  let shipping_ := Math_max zero (shipping item) in
  let subtotal_ := add (add (mul qty perItem) setup) shipping_ in
  let profitValue_ := mul subtotal_ (profitPercent item) in
  let total_ := add subtotal_ profitValue_ in
  {| subtotal := subtotal_; profitValue := profitValue_; total := total_ |}.

(** The clamping of a cost field in the words of the specification, to be
    compared with [Math.max(0, x)]: an input below zero counts as 0, and so
    does the negative zero; every other input, NaN included, is used as it
    is. *)
Definition clampToZero (x : number) : number :=
  if negative x then zero
  else if strict_eq x zero then zero
  else x.

(** The number that [formatCurrency] hands to the currency formatter:
    [Number.isFinite(value) ? value : 0]. *)
Definition formatCurrency_amount (value : number) : number :=
  if isFinite value then value else zero.

(** ** Strings *)

Module Str.

Definition code (c : ascii) : N := N_of_ascii c.

(** White space and line terminators removed by [String.prototype.trim]. *)
Definition is_space (c : ascii) : bool :=
  let n := code c in
  ((9 <=? n) && (n <=? 13) || (n =? 32) || (n =? 160))%N.

(** Upper-case letters with a lower-case partner 32 code units above. *)
Definition is_upper (c : ascii) : bool :=
  let n := code c in
  ((65 <=? n) && (n <=? 90) || (192 <=? n) && (n <=? 222) && negb (n =? 215))%N.

Definition lower_char (c : ascii) : ascii :=
  if is_upper c then ascii_of_N (code c + 32) else c.

Fixpoint toLowerCase (s : string) : string :=
  match s with
  | EmptyString => EmptyString
  | String c s' => String (lower_char c) (toLowerCase s')
  end.

Fixpoint trimStart (s : string) : string :=
  match s with
  | EmptyString => EmptyString
  | String c s' => if is_space c then trimStart s' else s
  end.

Fixpoint trimEnd (s : string) : string :=
  match s with
  | EmptyString => EmptyString
  | String c s' =>
      match trimEnd s' with
      | EmptyString => if is_space c then EmptyString else String c EmptyString
      | t => String c t
      end
  end.

Definition trim (s : string) : string := trimEnd (trimStart s).

(** [s || d]: the empty string is the only falsy string. *)
Definition or_else (s d : string) : string :=
  if String.eqb s "" then d else s.

End Str.
Export Str.

(** ** Blank drafts *)

Definition isBlankNewItem (item : Item) : bool :=
  String.eqb (id item) ""
  && String.eqb (toLowerCase (trim (name item))) "untitled"
  && strict_eq (quantity item) zero
  && strict_eq (pricePerItem item) zero
  && strict_eq (setupFee item) zero
  && strict_eq (shipping item) zero.

(** ** Item store: reading the durable medium *)

(** Values produced by [JSON.parse]. *)
#[warnings="-register-all"]
Inductive JValue : Type :=
  | JNull
  | JBool (b : bool)
  | JNum (n : number)
  | JStr (s : string)
  | JArr (l : list JValue)
  | JObj (m : gmap string JValue).

(** A record as it exists at run time: its own properties. *)
Abbreviation JObject := (gmap string JValue).

(** The object built by [createEmptyItem()] and, more generally, the
    run-time object of a well-typed [Item]. *)
Definition itemObj (i : Item) : JObject :=
  <["id" := JStr (id i)]>
  (<["name" := JStr (name i)]>
  (<["quantity" := JNum (quantity i)]>
  (<["pricePerItem" := JNum (pricePerItem i)]>
  (<["setupFee" := JNum (setupFee i)]>
  (<["shipping" := JNum (shipping i)]>
  (<["profitPercent" := JNum (profitPercent i)]> ∅)))))).

Fixpoint chars (s : string) : list JValue :=
  match s with
  | EmptyString => []
  | String c s' => JStr (String c EmptyString) :: chars s'
  end.

Definition indexed (l : list JValue) : JObject :=
  list_to_map (imap (fun k x => (pretty k, x)) l).

(** Own enumerable properties, as copied by the spread [...v]. *)
Definition ownProps (v : JValue) : JObject :=
  match v with
  | JObj m => m
  | JArr l => indexed l
  | JStr s => indexed (chars s)
  | JNull | JBool _ | JNum _ => ∅
  end.

(** [v.profitPercent]: [None] is the TypeError raised on [null], and
    [Some None] is [undefined]. *)
Definition get_profitPercent (v : JValue) : option (option JValue) :=
  match v with
  | JNull => None
  | JObj m => Some (m !! "profitPercent")
  | _ => Some None
  end.

(** [PROFIT_OPTIONS.includes(p)] for an arbitrary run-time value. *)
Definition includes_value (p : option JValue) : bool :=
  match p with
  | Some (JNum n) => includes PROFIT_OPTIONS n
  | _ => false
  end.

(** The callback of [parsed.map] in [loadSavedItems]. *)
Definition recover (item : JValue) : option JObject :=
  p ← get_profitPercent item;
  Some (<["profitPercent" := if includes_value p then default JNull p
                              else JNum n0_2]>
        (ownProps item ∪ itemObj createEmptyItem)).

(** The stored [profitPercent] of a record, if it has one. *)
Definition stored_profitPercent (e : JValue) : option JValue :=
  match e with
  | JObj m => m !! "profitPercent"
  | _ => None
  end.

(** The rate kept for a stored [profitPercent]: itself when it is one of
    the three options, and 0.2 otherwise. *)
Definition accepted_profitPercent (p : option JValue) : number :=
  match p with
  | Some (JNum n) => if includes PROFIT_OPTIONS n then n else n0_2
  | _ => n0_2
  end.

(** The record [r] is the element [e] with the properties it lacks taken
    from the empty item, and with a validated [profitPercent]. *)
Definition backfilled (e : JValue) (r : JObject) : Prop :=
  e ≠ JNull
  ∧ (∀ f : string, f ≠ "profitPercent" →
       r !! f = match ownProps e !! f with
                | Some v => Some v
                | None => itemObj createEmptyItem !! f
                end)
  ∧ r !! "profitPercent"
    = Some (JNum (accepted_profitPercent (stored_profitPercent e))).

Section Load.

(** [JSON.parse]; [None] stands for a thrown [SyntaxError]. *)
Variable JSON_parse : string → option JValue.

(** The body of the [try] block; [None] is a thrown exception. *)
Definition loadSavedItems_try (stored : option string) : option (list JObject) :=
  match stored with
  | None => Some []
  | Some raw =>
      if String.eqb raw "" then Some []
      else
        parsed ← JSON_parse raw;
        match parsed with
        | JArr l => mapM recover l
        | _ => Some []
        end
  end.

(** [stored] is the value of [localStorage.getItem(STORAGE_KEY)]. *)
Definition loadSavedItems (stored : option string) : list JObject :=
  default [] (loadSavedItems_try stored).

End Load.

(** ** Collections of values *)

(** The collection of values that [upsertItem] stores, for the completed
    item [next] whose identifier is [id_]. *)
Definition upserted (C : list Item) (id_ : string) (next : Item) : list Item :=
  if existsb (fun saved => String.eqb (id saved) id_) C
  then map (fun saved => if String.eqb (id saved) id_ then next else saved) C
  else C ++ [next].

(** ** The application state *)

(** An [Item] object together with its identity: React compares state
    values and effect dependencies with [Object.is]. *)
Record Obj : Type := mkObj { addr : nat; val : Item }.

Record App : Type := mkApp {
  (** [useState] cells of [App]. *)
  current : Obj;
  savedItems : list Obj;
  (** [savedItemsRef.current]. *)
  savedItemsRef : list Obj;
  (** State and ref kept by [useDebounceValue(current, 15000)]. *)
  debouncedCurrent : Obj;
  previousValueRef : Obj;
  (** The pending trailing call of the debounced setter: milliseconds left
      and the last argument it was called with. *)
  debounceTimer : option (N * Obj);
  (** [hasMounted.current]. *)
  hasMounted : bool;
  (** The pending [setTimeout(() => upsertItem(debouncedCurrent), 0)]. *)
  autosaveTimer : option Obj;
  (** Every [localStorage.setItem(STORAGE_KEY, JSON.stringify(items))], oldest
      first, recorded by the items it serialises. *)
  writes : list (list Item);
  (** Next fresh object identity, and number of calls to [nanoid] so far. *)
  nextAddr : nat;
  nextId : nat
}.

Definition set_current (v : Obj) (st : App) : App :=
  mkApp v (savedItems st) (savedItemsRef st) (debouncedCurrent st)
        (previousValueRef st) (debounceTimer st) (hasMounted st)
        (autosaveTimer st) (writes st) (nextAddr st) (nextId st).

Definition set_savedItems (v : list Obj) (st : App) : App :=
  mkApp (current st) v (savedItemsRef st) (debouncedCurrent st)
        (previousValueRef st) (debounceTimer st) (hasMounted st)
        (autosaveTimer st) (writes st) (nextAddr st) (nextId st).

Definition set_savedItemsRef (v : list Obj) (st : App) : App :=
  mkApp (current st) (savedItems st) v (debouncedCurrent st)
        (previousValueRef st) (debounceTimer st) (hasMounted st)
        (autosaveTimer st) (writes st) (nextAddr st) (nextId st).

Definition set_debouncedCurrent (v : Obj) (st : App) : App :=
  mkApp (current st) (savedItems st) (savedItemsRef st) v
        (previousValueRef st) (debounceTimer st) (hasMounted st)
        (autosaveTimer st) (writes st) (nextAddr st) (nextId st).

Definition set_previousValueRef (v : Obj) (st : App) : App :=
  mkApp (current st) (savedItems st) (savedItemsRef st) (debouncedCurrent st)
        v (debounceTimer st) (hasMounted st) (autosaveTimer st) (writes st)
        (nextAddr st) (nextId st).

Definition set_debounceTimer (v : option (N * Obj)) (st : App) : App :=
  mkApp (current st) (savedItems st) (savedItemsRef st) (debouncedCurrent st)
        (previousValueRef st) v (hasMounted st) (autosaveTimer st) (writes st)
        (nextAddr st) (nextId st).

Definition set_hasMounted (v : bool) (st : App) : App :=
  mkApp (current st) (savedItems st) (savedItemsRef st) (debouncedCurrent st)
        (previousValueRef st) (debounceTimer st) v (autosaveTimer st)
        (writes st) (nextAddr st) (nextId st).

Definition set_autosaveTimer (v : option Obj) (st : App) : App :=
  mkApp (current st) (savedItems st) (savedItemsRef st) (debouncedCurrent st)
        (previousValueRef st) (debounceTimer st) (hasMounted st) v (writes st)
        (nextAddr st) (nextId st).

Definition set_writes (v : list (list Item)) (st : App) : App :=
  mkApp (current st) (savedItems st) (savedItemsRef st) (debouncedCurrent st)
        (previousValueRef st) (debounceTimer st) (hasMounted st)
        (autosaveTimer st) v (nextAddr st) (nextId st).

Definition set_nextAddr (v : nat) (st : App) : App :=
  mkApp (current st) (savedItems st) (savedItemsRef st) (debouncedCurrent st)
        (previousValueRef st) (debounceTimer st) (hasMounted st)
        (autosaveTimer st) (writes st) v (nextId st).

Definition set_nextId (v : nat) (st : App) : App :=
  mkApp (current st) (savedItems st) (savedItemsRef st) (debouncedCurrent st)
        (previousValueRef st) (debounceTimer st) (hasMounted st)
        (autosaveTimer st) (writes st) (nextAddr st) v.

Definition quietWindow : N := 15000.

Inductive Event : Type :=
  | NameChange (value : string)
  | NumberChange (field : NumericField) (value : string)
  | ProfitChange (value : string)
  | Load (id : string)
  | Delete (id : string)
  | New
  | Elapse (ms : N).

(** The events that act on the Draft alone: edits, reload and reset. *)
Definition isDraftEvent (e : Event) : bool :=
  match e with
  | Delete _ | Elapse _ => false
  | _ => true
  end.

(** The edits of the Draft: name, numeric field and profit rate. *)
Definition isEdit (e : Event) : bool :=
  match e with
  | NameChange _ | NumberChange _ _ | ProfitChange _ => true
  | _ => false
  end.

Section App.

(** The identifier generator: [nanoid n] is the result of the call number
    [n] to [nanoid()]. *)
Variable nanoid : nat → string.

(** The conversion [Number(value)] of a string to a number. *)
Variable Number : string → number.

Definition alloc (v : Item) (st : App) : Obj * App :=
  (mkObj (nextAddr st) v, set_nextAddr (S (nextAddr st)) st).

(** [i || nanoid()]: the generator is only called when [i] is empty. *)
Definition id_or_nanoid (i : string) (st : App) : string * App :=
  if String.eqb i "" then (nanoid (nextId st), set_nextId (S (nextId st)) st)
  else (i, st).

(** The identifier that [i || nanoid()] evaluates to in state [st]. *)
Definition completed_id (st : App) (i : string) : string :=
  if String.eqb i "" then nanoid (nextId st) else i.

(** Modelled from the spec: the hook [useDebounceValue] of the package
    usehooks-ts, whose source is not part of the repository.  It is the
    quiet-period timer of the Autosave Scheduler: a change of the Draft
    starts or restarts the timer with the latest value, so a pending
    earlier value is dropped.  A change is a new object, as for every
    React state comparison.  This is the part of the hook that runs during
    a render of [App]. *)
Definition useDebounceValue_render (st : App) : App :=
  if Nat.eqb (addr (previousValueRef st)) (addr (current st)) then st
  else set_previousValueRef (current st)
         (set_debounceTimer (Some (quietWindow, current st)) st).

(** A render of [App] after a state update. *)
Definition render (st : App) : App := useDebounceValue_render st.

Definition persistItems (items : list Obj) (st : App) : App :=
  set_writes (writes st ++ [map val items])
    (set_savedItemsRef items (set_savedItems items st)).

Definition upsertItem (item : Item) (st : App) : Obj * App :=
  let '(id_, st1) := id_or_nanoid (id item) st in
  let '(nextItem, st2) := alloc (with_id id_ item) st1 in
  let exists_ :=
    existsb (fun saved => String.eqb (id (val saved)) id_) (savedItemsRef st2) in
  let updated :=
    if exists_
    then map (fun saved => if String.eqb (id (val saved)) id_
                           then nextItem else saved) (savedItemsRef st2)
    else savedItemsRef st2 ++ [nextItem] in
  (nextItem, render (persistItems updated st2)).

(** [setCurrent] with an updater that builds a new object. *)
Definition setCurrent_new (v : Item) (st : App) : App :=
  let '(o, st1) := alloc v st in
  render (set_current o st1).

Definition handleNumberChange (field : NumericField) (value : string)
    (st : App) : App :=
  let prev := val (current st) in
  let '(id_, st1) := id_or_nanoid (id prev) st in
  let n := Number value in
  setCurrent_new
    (with_field field (if truthy n then n else zero) (with_id id_ prev)) st1.

Definition handleNameChange (value : string) (st : App) : App :=
  let prev := val (current st) in
  let '(id_, st1) := id_or_nanoid (id prev) st in
  setCurrent_new (with_name (or_else value "Untitled") (with_id id_ prev)) st1.

Definition handleProfitChange (value : string) (st : App) : App :=
  let parsed := Number value in
  let prev := val (current st) in
  let '(id_, st1) := id_or_nanoid (id prev) st in
  setCurrent_new
    (with_profitPercent
       (if includes PROFIT_OPTIONS parsed then parsed else n0_2)
       (with_id id_ prev)) st1.

(** [setCurrent(item)] with an object that already exists: React skips
    the update when it is the object already held. *)
Definition setCurrent (item : Obj) (st : App) : App :=
  if Nat.eqb (addr item) (addr (current st)) then st
  else render (set_current item st).

Definition handleLoad (id_ : string) (st : App) : App :=
  match find (fun saved => String.eqb (id (val saved)) id_) (savedItems st) with
  | Some item => setCurrent item st
  | None => st
  end.

Definition handleDelete (id_ : string) (st : App) : App :=
  let filtered :=
    filter (fun item => id (val item) ≠ id_) (savedItems st) in
  let st1 := persistItems filtered st in
  if String.eqb (id (val (current st))) id_
  then setCurrent_new createEmptyItem st1
  else render st1.

Definition handleNew (st : App) : App := setCurrent_new createEmptyItem st.

(** The inline test of the autosave effect. *)
Definition isEmpty (debounced : Item) : bool :=
  String.eqb (id debounced) ""
  && String.eqb (toLowerCase (trim (name debounced))) "untitled"
  && strict_eq (quantity debounced) zero
  && strict_eq (pricePerItem debounced) zero
  && strict_eq (setupFee debounced) zero
  && strict_eq (shipping debounced) zero.

(** One run of the effect with dependency [debouncedCurrent], preceded by
    the cleanup of the previous run, [clearTimeout(timer)]. *)
Definition autosaveEffect (st : App) : App :=
  let st := set_autosaveTimer None st in
  if negb (hasMounted st) then set_hasMounted true st
  else if isEmpty (val (debouncedCurrent st)) then st
  else set_autosaveTimer (Some (debouncedCurrent st)) st.

(** The timer of the effect fires. *)
Definition fireAutosave (st : App) : App :=
  match autosaveTimer st with
  | Some debounced => snd (upsertItem (val debounced) (set_autosaveTimer None st))
  | None => st
  end.

(** Modelled from the spec: the state update made by [useDebounceValue]
    when its quiet-period timer elapses.  The debounced value becomes
    the latest Draft value; React skips the update, and with it the
    effect, when the object is the one already held. *)
Definition setDebouncedValue (v : Obj) (st : App) : App :=
  if Nat.eqb (addr v) (addr (debouncedCurrent st)) then st
  else autosaveEffect (render (set_debouncedCurrent v st)).

(** [ms] milliseconds pass without any user event: every timer that is
    due fires, in the order of its deadline.  The quiet-period timer is due
    once the whole window has passed since the last change of the Draft; the
    timer of the effect, set with delay 0, is due as soon as it is set. *)
Definition elapse (ms : N) (st : App) : App :=
  let st := fireAutosave st in
  match debounceTimer st with
  | Some (remaining, v) =>
      if (remaining <=? ms)%N
      then fireAutosave (setDebouncedValue v (set_debounceTimer None st))
      else set_debounceTimer (Some (remaining - ms, v)%N) st
  | None => st
  end.

(** The first render of [App] and the first run of the effect.  [loaded]
    is the value of [loadSavedItems()]. *)
Definition mount (loaded : list Item) : App :=
  let cur := mkObj 0 createEmptyItem in
  let saved := imap (fun k v => mkObj (S k) v) loaded in
  autosaveEffect
    {| current := cur; savedItems := saved; savedItemsRef := saved;
       debouncedCurrent := cur; previousValueRef := cur;
       debounceTimer := None; hasMounted := false; autosaveTimer := None;
       writes := []; nextAddr := S (length loaded); nextId := 0 |}.

Definition step (st : App) (e : Event) : App :=
  match e with
  | NameChange value => handleNameChange value st
  | NumberChange field value => handleNumberChange field value st
  | ProfitChange value => handleProfitChange value st
  | Load id_ => handleLoad id_ st
  | Delete id_ => handleDelete id_ st
  | New => handleNew st
  | Elapse ms => elapse ms st
  end.

Definition run (st : App) (es : list Event) : App := fold_left step es st.

(** States of a session: the mounted state and everything events lead to. *)
Inductive reachable (loaded : list Item) : App → Prop :=
  | reach_mount : reachable loaded (mount loaded)
  | reach_step st e : reachable loaded st → reachable loaded (step st e).

(** What an edit does to the identifier of the Draft: an unanchored Draft
    receives the next generated identifier, which is not empty and was
    never generated before; an anchored Draft keeps its identifier and the
    generator is not called. *)
Definition anchors (st st' : App) : Prop :=
  let i := id (val (current st)) in
  let i' := id (val (current st')) in
  (i = "" →
     i' = nanoid (nextId st) ∧ i' ≠ ""
     ∧ (∀ m, m < nextId st → nanoid m ≠ i')
     ∧ nextId st' = S (nextId st))
  ∧ (i ≠ "" → i' = i ∧ nextId st' = nextId st).

(** The event replaces the Draft by another object. *)
Definition changesDraft (st : App) (e : Event) : bool :=
  negb (Nat.eqb (addr (current (step st e))) (addr (current st))).

(** A burst of Draft changes, each given with the time elapsed since the
    event before it. *)
Definition burst_events (b : list (N * Event)) : list Event :=
  flat_map (fun ge => [Elapse (fst ge); snd ge]) b.

Definition run_burst (st : App) (b : list (N * Event)) : App :=
  run st (burst_events b).

(** Every event of the burst changes the Draft and comes less than one
    quiet window after the event before it. *)
Fixpoint quiet_burst (st : App) (b : list (N * Event)) : bool :=
  match b with
  | [] => true
  | (gap, e) :: b' =>
      (gap <? quietWindow)%N && isDraftEvent e
      && changesDraft (elapse gap st) e
      && quiet_burst (step (elapse gap st) e) b'
  end.

End App.

(** ** Invariants of a session *)

(** The scheduler between two events: the effect has run once, no autosave
    is waiting, the hook has seen the current Draft, state and ref hold the
    same Collection, a pending quiet-period timer carries the current Draft,
    and every object is older than the next identity. *)
Record Scheduled (st : App) : Prop := mkScheduled {
  sch_mounted : hasMounted st = true;
  sch_autosave : autosaveTimer st = None;
  sch_previous : previousValueRef st = current st;
  sch_saved : savedItems st = savedItemsRef st;
  sch_timer : ∀ r v, debounceTimer st = Some (r, v) →
                v = current st ∧ (0 < r ≤ quietWindow)%N;
  sch_current_addr : addr (current st) < nextAddr st;
  sch_saved_addr : Forall (fun o => addr o < nextAddr st) (savedItems st)
}.

(** A change of the Draft, from [st] to [st']: the timer is restarted with
    the new Draft, and nothing is written or debounced. *)
Definition restarted (st st' : App) : Prop :=
  debounceTimer st' = Some (quietWindow, current st')
  ∧ writes st' = writes st
  ∧ savedItemsRef st' = savedItemsRef st
  ∧ debouncedCurrent st' = debouncedCurrent st.

(** [P] holds of every Draft value and [Q] of every saved or written item. *)
Record Sound (P Q : Item → Prop) (st : App) : Prop := mkSound {
  snd_current : P (val (current st));
  snd_saved : Forall (fun o => Q (val o)) (savedItemsRef st);
  snd_writes : Forall (Forall Q) (writes st)
}.

(** ** The manual-save variant *)

(** The first program of [src/App.tsx]: the Draft is saved by a button, new
    items are created in a dialog with a draft of its own, and nothing is
    debounced.  No comparison of objects is involved, so state cells hold
    values.  The calls [showModal()] and [close()] on the dialog element
    change no state of [App]; the close event of the dialog is an event of
    its own, [CreateDialogClose]. *)
Module Manual.

Record App : Type := mkApp {
  current : Item;
  savedItems : list Item;
  savedItemsRef : list Item;
  newItemDraft : Item;
  writes : list (list Item);
  nextId : nat
}.

Definition set_current (v : Item) (st : App) : App :=
  mkApp v (savedItems st) (savedItemsRef st) (newItemDraft st) (writes st)
        (nextId st).

Definition set_newItemDraft (v : Item) (st : App) : App :=
  mkApp (current st) (savedItems st) (savedItemsRef st) v (writes st)
        (nextId st).

Definition set_nextId (v : nat) (st : App) : App :=
  mkApp (current st) (savedItems st) (savedItemsRef st) (newItemDraft st)
        (writes st) v.

Inductive Event : Type :=
  | NameChange (value : string)
  | NumberChange (field : NumericField) (value : string)
  | ProfitChange (value : string)
  | NewNameChange (value : string)
  | NewNumberChange (field : NumericField) (value : string)
  | NewProfitChange (value : string)
  | Load (id : string)
  | Delete (id : string)
  | OpenCreateDialog
  | CreateDialogClose
  | Save
  | AddNew.

(** The events whose handlers call [persistItems]. *)
Definition persists (e : Event) : bool :=
  match e with
  | Delete _ | Save | AddNew => true
  | _ => false
  end.

Section Handlers.

Variable nanoid : nat → string.
Variable Number : string → number.

Definition persistItems (items : list Item) (st : App) : App :=
  mkApp (current st) items items (newItemDraft st) (writes st ++ [items])
        (nextId st).

Definition upsertItem (item : Item) (st : App) : Item * App :=
  let '(id_, st1) :=
    if String.eqb (id item) ""
    then (nanoid (nextId st), set_nextId (S (nextId st)) st)
    else (id item, st) in
  let nextItem := with_id id_ item in
  let exists_ :=
    existsb (fun saved => String.eqb (id saved) id_) (savedItemsRef st1) in
  let updated :=
    if exists_
    then map (fun saved => if String.eqb (id saved) id_ then nextItem else saved)
             (savedItemsRef st1)
    else savedItemsRef st1 ++ [nextItem] in
  (nextItem, persistItems updated st1).

Definition edit_number (field : NumericField) (value : string) (prev : Item)
    : Item :=
  let n := Number value in
  with_field field (if truthy n then n else zero) prev.

Definition edit_name (value : string) (prev : Item) : Item :=
  with_name (or_else value "Untitled") prev.

Definition edit_profit (value : string) (prev : Item) : Item :=
  let parsed := Number value in
  with_profitPercent (if includes PROFIT_OPTIONS parsed then parsed else n0_2)
    prev.

Definition handleNumberChange (field : NumericField) (value : string)
    (st : App) : App :=
  set_current (edit_number field value (current st)) st.

Definition handleNameChange (value : string) (st : App) : App :=
  set_current (edit_name value (current st)) st.

Definition handleProfitChange (value : string) (st : App) : App :=
  set_current (edit_profit value (current st)) st.

Definition handleNewNumberChange (field : NumericField) (value : string)
    (st : App) : App :=
  set_newItemDraft (edit_number field value (newItemDraft st)) st.

Definition handleNewNameChange (value : string) (st : App) : App :=
  set_newItemDraft (edit_name value (newItemDraft st)) st.

Definition handleNewProfitChange (value : string) (st : App) : App :=
  set_newItemDraft (edit_profit value (newItemDraft st)) st.

Definition handleLoad (id_ : string) (st : App) : App :=
  match find (fun saved => String.eqb (id saved) id_) (savedItems st) with
  | Some item => set_current item st
  | None => st
  end.

Definition handleDelete (id_ : string) (st : App) : App :=
  let filtered := filter (fun item => id item ≠ id_) (savedItems st) in
  let st1 := persistItems filtered st in
  if String.eqb (id (current st)) id_
  then set_current createEmptyItem st1
  else st1.

Definition openCreateDialog (st : App) : App :=
  set_newItemDraft createEmptyItem st.

Definition handleCreateDialogClose (st : App) : App :=
  set_newItemDraft createEmptyItem st.

(** [Boolean(current.id)]. *)
Definition canSave (st : App) : bool := negb (String.eqb (id (current st)) "").

Definition canCreate (st : App) : bool :=
  negb (isBlankNewItem (newItemDraft st)).

Definition handleSave (st : App) : App :=
  if negb (canSave st) then st
  else
    let '(saved, st1) := upsertItem (current st) st in
    set_current saved st1.

Definition handleAddNew (st : App) : App :=
  if negb (canCreate st) then st
  else
    let '(saved, st1) := upsertItem (newItemDraft st) st in
    set_current saved st1.

(** The first render; [loaded] is the value of [loadSavedItems()]. *)
Definition mount (loaded : list Item) : App :=
  {| current := createEmptyItem; savedItems := loaded; savedItemsRef := loaded;
     newItemDraft := createEmptyItem; writes := []; nextId := 0 |}.

Definition step (st : App) (e : Event) : App :=
  match e with
  | NameChange value => handleNameChange value st
  | NumberChange field value => handleNumberChange field value st
  | ProfitChange value => handleProfitChange value st
  | NewNameChange value => handleNewNameChange value st
  | NewNumberChange field value => handleNewNumberChange field value st
  | NewProfitChange value => handleNewProfitChange value st
  | Load id_ => handleLoad id_ st
  | Delete id_ => handleDelete id_ st
  | OpenCreateDialog => openCreateDialog st
  | CreateDialogClose => handleCreateDialogClose st
  | Save => handleSave st
  | AddNew => handleAddNew st
  end.

Definition run (st : App) (es : list Event) : App := fold_left step es st.

Inductive reachable (loaded : list Item) : App → Prop :=
  | reach_mount : reachable loaded (mount loaded)
  | reach_step st e : reachable loaded st → reachable loaded (step st e).

End Handlers.

(** What every state of a manual session satisfies. *)
Record Consistent (loaded : list Item) (st : App) : Prop := mkConsistent {
  con_sync : savedItems st = savedItemsRef st;
  con_stored : savedItemsRef st = default loaded (last (writes st));
  con_draft : id (newItemDraft st) = "";
  con_anchor : id (current st) ≠ "" → id (current st) ∈ map id (savedItems st);
  con_added : Forall (fun x => x ∈ loaded ∨ id x ≠ "") (savedItemsRef st)
}.

End Manual.

(** A well-formed Item: its profit rate is one of the three options and
    none of its numeric fields is NaN. *)
Definition wellFormed (item : Item) : Prop :=
  includes PROFIT_OPTIONS (profitPercent item) = true
  ∧ ∀ f, get_field f item ≠ NaN.

(** ** Sample data *)

(** An item with a NaN quantity and a setup fee of 5. *)
Definition nan_quantity_item : Item :=
  mkItem "a" "Untitled" NaN (of_pos 10) (of_pos 5) zero n0_25.

(** A deterministic identifier generator: the call number [n] returns the
    letter i followed by [n] in decimal. *)
Definition sample_nanoid (n : nat) : string := String "i" (pretty n).

(** A partial [Number]: the strings 3, 5 and 10 denote themselves. *)
Definition sample_Number (value : string) : number :=
  if String.eqb value "3" then of_pos 3
  else if String.eqb value "5" then of_pos 5
  else if String.eqb value "10" then of_pos 10
  else NaN.

(** An unanchored draft that is not blank. *)
Definition named_draft : Item := with_name "Mugs" createEmptyItem.

(** A saved item. *)
Definition saved_mugs : Item :=
  mkItem "m1" "Mugs" (of_pos 3) (of_pos 10) zero zero n0_25.

(** A second saved item. *)
Definition saved_cups : Item :=
  mkItem "c2" "Cups" (of_pos 5) (of_pos 3) zero zero n0_2.

(** Three units at 10 each with a rate of 0.25. *)
Definition three_at_ten : Item :=
  mkItem "" "Untitled" (of_pos 3) (of_pos 10) zero zero n0_25.

(** An item whose cost fields are all at most zero: a negative quantity,
    a price of 0, a setup fee of -Infinity and a shipping of -0. *)
Definition credit_item : Item :=
  mkItem "r" "Refund" (SFopp (of_pos 3)) zero (S754_infinity true) negzero n0_2.

(** A [JSON.parse] for a payload holding one record without properties. *)
Definition empty_record_parse (raw : string) : option JValue :=
  Some (JArr [JObj ∅]).

(** A [JSON.parse] for a payload holding one record whose name is empty. *)
Definition empty_name_parse (raw : string) : option JValue :=
  Some (JArr [JObj {["name" := JStr ""]}]).

(** A [JSON.parse] for a payload holding the record of [saved_mugs]. *)
Definition saved_mugs_parse (raw : string) : option JValue :=
  Some (JArr (map (fun i => JObj (itemObj i)) [saved_mugs])).

(** A [JSON.parse] for a payload holding a record and [null]. *)
Definition null_element_parse (raw : string) : option JValue :=
  Some (JArr [JObj (itemObj saved_mugs); JNull]).

(** * Properties *)

(** ** Pricing calculator *)

Example scenario_A :
  calculateTotals
    (mkItem "" "Untitled" (of_pos 3) (of_pos 10) zero zero n0_25)
  = {| subtotal := of_pos 30;
       profitValue := S754_finite false 8444249301319680 (-50);
       total := S754_finite false 5277655813324800 (-47) |}.
Proof. vm_compute. reflexivity. Qed.

Lemma with_field_get (f : NumericField) (item : Item) :
  with_field f (get_field f item) item = item.
Proof. destruct item, f; reflexivity. Qed.

Lemma get_with_field (f : NumericField) (v : number) (item : Item) :
  get_field f (with_field f v item) = v.
Proof. destruct f; reflexivity. Qed.

Lemma Math_max_zero_negative (x : number) :
  negative x = true → Math_max zero x = zero.
Proof. destruct x as [[]|[]| |[] m e]; cbn; congruence. Qed.

Lemma calculateTotals_clamped (f : NumericField) (v : number) (item : Item) :
  Math_max zero v = Math_max zero (get_field f item) →
  calculateTotals (with_field f v item) = calculateTotals item.
Proof.
  intros H. destruct f; unfold calculateTotals; cbn in *; rewrite H; reflexivity.
Qed.

Lemma Math_max_zero_clampToZero (x : number) :
  Math_max zero x = clampToZero x.
Proof. destruct x as [[] | [] | | [] m e]; reflexivity. Qed.

Lemma clampToZero_kept (x : number) :
  negative x = false → x ≠ negzero → clampToZero x = x.
Proof.
  destruct x as [[] | [] | | [] m e]; intros Hneg Hzero;
    try discriminate; try reflexivity.
  exfalso. apply Hzero. reflexivity.
Qed.

(** C5. [calculateTotals] returns
    subtotal = max(0, quantity) * max(0, pricePerItem) + max(0, setupFee)
    + max(0, shipping), profit = subtotal * profitPercent and
    total = subtotal + profit, in the arithmetic of JavaScript numbers,
    where max(0, x) is 0 for an input below zero and the input itself
    otherwise.  So a negative field counts as 0 in this computation, fields
    that are not below zero enter the subtotal as they are, and the function
    only reads the item it is given. *)
Theorem calculateTotals_formula (item : Item) :
  let sub :=
    add (add (mul (clampToZero (quantity item))
                  (clampToZero (pricePerItem item)))
             (clampToZero (setupFee item)))
        (clampToZero (shipping item)) in
  subtotal (calculateTotals item) = sub
  ∧ profitValue (calculateTotals item) = mul sub (profitPercent item)
  ∧ total (calculateTotals item) = add sub (mul sub (profitPercent item))
  ∧ (∀ f : NumericField,
       calculateTotals
         (with_field f (if negative (get_field f item) then zero
                        else get_field f item) item)
       = calculateTotals item)
  ∧ ((∀ f : NumericField,
        negative (get_field f item) = false ∧ get_field f item ≠ negzero) →
       subtotal (calculateTotals item)
       = add (add (mul (quantity item) (pricePerItem item)) (setupFee item))
             (shipping item)).
Proof.
  cbv zeta.
  assert (subtotal (calculateTotals item)
          = add (add (mul (clampToZero (quantity item))
                          (clampToZero (pricePerItem item)))
                     (clampToZero (setupFee item)))
                (clampToZero (shipping item))) as Hsub.
  { unfold calculateTotals. cbn [subtotal].
    rewrite !Math_max_zero_clampToZero. reflexivity. }
  split; [exact Hsub |].
  split; [rewrite <- Hsub; reflexivity |].
  split; [rewrite <- Hsub; reflexivity |].
  split.
  - intros f. destruct (negative (get_field f item)) eqn:Hneg.
    + apply calculateTotals_clamped.
      rewrite (Math_max_zero_negative _ Hneg). reflexivity.
    + rewrite with_field_get. reflexivity.
  - intros Hkept. rewrite Hsub.
    destruct (Hkept Fquantity) as [Hq Hq'].
    destruct (Hkept FpricePerItem) as [Hp Hp'].
    destruct (Hkept FsetupFee) as [Hs Hs'].
    destruct (Hkept Fshipping) as [Hh Hh'].
    cbn [get_field] in *.
    rewrite !clampToZero_kept by assumption. reflexivity.
Qed.

Lemma calculateTotals_formula_witness :
  (∀ f : NumericField,
     negative (get_field f three_at_ten) = false
     ∧ get_field f three_at_ten ≠ negzero)
  ∧ subtotal (calculateTotals three_at_ten) = of_pos 30.
Proof.
  assert (∀ f : NumericField,
            negative (get_field f three_at_ten) = false
            ∧ get_field f three_at_ten ≠ negzero) as Hkept
    by (intros []; split; solve [reflexivity | discriminate]).
  split; [exact Hkept |].
  destruct (calculateTotals_formula three_at_ten) as (_ & _ & _ & _ & Hraw).
  rewrite (Hraw Hkept). vm_compute. reflexivity.
Defined.

Lemma add_nonfinite_l (x y : number) :
  isFinite x = false → isFinite (add x y) = false.
Proof.
  destruct x as [s|[]| |s m e]; try discriminate; intros _;
    destruct y as [[]|[]| |[] m' e']; reflexivity.
Qed.

Lemma add_nonfinite_r (x y : number) :
  isFinite y = false → isFinite (add x y) = false.
Proof.
  destruct y as [s|[]| |s m e]; try discriminate; intros _;
    destruct x as [[]|[]| |[] m' e']; reflexivity.
Qed.

Lemma mul_nonfinite_l (x y : number) :
  isFinite x = false → isFinite (mul x y) = false.
Proof.
  destruct x as [s|[]| |s m e]; try discriminate; intros _;
    destruct y as [[]|[]| |[] m' e']; reflexivity.
Qed.

Lemma mul_nonfinite_r (x y : number) :
  isFinite y = false → isFinite (mul x y) = false.
Proof.
  destruct y as [s|[]| |s m e]; try discriminate; intros _;
    destruct x as [[]|[]| |[] m' e']; reflexivity.
Qed.

Lemma add_NaN_r (x : number) : add x NaN = NaN.
Proof. destruct x; reflexivity. Qed.

Lemma mul_NaN_r (x : number) : mul x NaN = NaN.
Proof. destruct x; reflexivity. Qed.

Lemma subtotal_nonfinite (f : NumericField) (item : Item) :
  isFinite (Math_max zero (get_field f item)) = false →
  isFinite (subtotal (calculateTotals item)) = false.
Proof.
  intros H. destruct f; cbn in H |- *.
  - apply add_nonfinite_l, add_nonfinite_l, mul_nonfinite_l, H.
  - apply add_nonfinite_l, add_nonfinite_l, mul_nonfinite_r, H.
  - apply add_nonfinite_l, add_nonfinite_r, H.
  - apply add_nonfinite_r, H.
Qed.

Lemma subtotal_NaN (f : NumericField) (item : Item) :
  get_field f item = NaN → subtotal (calculateTotals item) = NaN.
Proof.
  intros H. destruct f; cbn in H |- *; rewrite H; cbn;
    rewrite ?mul_NaN_r, ?add_NaN_r; reflexivity.
Qed.

(** C6, as stated, fails: with a NaN quantity the subtotal is NaN, whereas
    the same item with quantity 0 has subtotal 5. *)
Lemma calculateTotals_NaN_not_zero :
  isFinite (get_field Fquantity nan_quantity_item) = false
  ∧ subtotal (calculateTotals nan_quantity_item) = NaN
  ∧ subtotal (calculateTotals (with_field Fquantity zero nan_quantity_item))
    = of_pos 5
  ∧ calculateTotals nan_quantity_item
    ≠ calculateTotals (with_field Fquantity zero nan_quantity_item).
Proof. vm_compute. repeat split; discriminate. Qed.

(** C6, amended. [calculateTotals] is a total function, but it does not
    replace non-finite inputs by 0: a NaN field makes subtotal, profit and
    total NaN, a field +Infinity makes all three non-finite, and only
    -Infinity counts as 0, as every negative input does.  The replacement of
    a non-finite amount by 0 is made by [formatCurrency] on the amount it
    displays. *)
Theorem calculateTotals_nonfinite (item : Item) (f : NumericField) :
  (get_field f item = NaN →
     calculateTotals item
     = {| subtotal := NaN; profitValue := NaN; total := NaN |})
  ∧ (get_field f item = Infinity →
       isFinite (subtotal (calculateTotals item)) = false
       ∧ isFinite (profitValue (calculateTotals item)) = false
       ∧ isFinite (total (calculateTotals item)) = false)
  ∧ (get_field f item = S754_infinity true →
       calculateTotals item = calculateTotals (with_field f zero item))
  ∧ (∀ v, isFinite v = false → formatCurrency_amount v = zero).
Proof.
  split; [| split; [| split]].
  - intros H. pose proof (subtotal_NaN f item H) as Hs.
    unfold calculateTotals in *. cbn in Hs. rewrite Hs. reflexivity.
  - intros H.
    assert (isFinite (subtotal (calculateTotals item)) = false) as Hs
      by (apply (subtotal_nonfinite f); rewrite H; reflexivity).
    repeat split; [exact Hs | |].
    + apply mul_nonfinite_l, Hs.
    + apply add_nonfinite_l, Hs.
  - intros H. symmetry. apply calculateTotals_clamped. rewrite H. reflexivity.
  - intros v H. unfold formatCurrency_amount. rewrite H. reflexivity.
Qed.

Lemma calculateTotals_nonfinite_witness :
  get_field Fquantity nan_quantity_item = NaN
  ∧ calculateTotals nan_quantity_item
    = {| subtotal := NaN; profitValue := NaN; total := NaN |}.
Proof.
  split; [reflexivity |].
  apply (proj1 (calculateTotals_nonfinite nan_quantity_item Fquantity)).
  reflexivity.
Defined.

(** ** Upsert reconciler *)

Lemma sample_nanoid_nonempty (n : nat) : sample_nanoid n ≠ "".
Proof. discriminate. Qed.

Lemma sample_nanoid_inj (m n : nat) : sample_nanoid m = sample_nanoid n → m = n.
Proof. intros H. injection H as H. exact (inj pretty _ _ H). Qed.

Lemma with_id_id (item : Item) : with_id (id item) item = item.
Proof. destruct item; reflexivity. Qed.

(** Replacing by identifier in a list without duplicate identifiers changes
    exactly one position. *)
Lemma replace_by_id_insert (l : list Item) (id_ : string) (next s : Item) (k : nat) :
  NoDup (map id l) → l !! k = Some s → id s = id_ →
  map (fun saved => if String.eqb (id saved) id_ then next else saved) l
  = <[k := next]> l.
Proof.
  revert k. induction l as [|a l IH]; intros k Hnd Hk Hid; [done |].
  apply NoDup_cons in Hnd as [Hnotin Hnd].
  destruct k as [|k]; cbn in Hk |- *.
  - injection Hk as ->. rewrite (proj2 (String.eqb_eq _ _) Hid). f_equal.
    clear IH. induction l as [|b l IH]; [done |].
    cbn in Hnotin |- *. apply not_elem_of_cons in Hnotin as [Hne Hnotin].
    apply NoDup_cons in Hnd as [_ Hnd].
    destruct (String.eqb_spec (id b) id_) as [Heq | _]; [congruence |].
    f_equal. apply IH; assumption.
  - destruct (String.eqb_spec (id a) id_) as [Heq | _].
    + exfalso. apply Hnotin. rewrite Heq, <- Hid.
      apply list_elem_of_fmap. exists s. split; [done |].
      apply list_elem_of_lookup. eauto.
    + f_equal. apply IH; assumption.
Qed.

Lemma existsb_id_false (l : list Item) (id_ : string) :
  (∀ s, s ∈ l → id s ≠ id_) →
  existsb (fun saved => String.eqb (id saved) id_) l = false.
Proof.
  induction l as [|a l IH]; intros H; [done |]. cbn.
  destruct (String.eqb_spec (id a) id_) as [Heq | _].
  - exfalso. apply (H a); [left | done].
  - apply IH. intros s Hs. apply H. right. exact Hs.
Qed.

Lemma existsb_id_true (l : list Item) (id_ : string) (s : Item) :
  s ∈ l → id s = id_ →
  existsb (fun saved => String.eqb (id saved) id_) l = true.
Proof.
  intros Hin Hid. apply existsb_exists. exists s. split.
  - apply list_elem_of_In, Hin.
  - apply String.eqb_eq, Hid.
Qed.

Lemma existsb_val (l : list Obj) (id_ : string) :
  existsb (fun saved => String.eqb (id (val saved)) id_) l
  = existsb (fun saved => String.eqb (id saved) id_) (map val l).
Proof. induction l as [|a l IH]; [done |]. cbn. rewrite IH. reflexivity. Qed.

Lemma map_val_replace (l : list Obj) (id_ : string) (next : Obj) :
  map val (map (fun saved => if String.eqb (id (val saved)) id_
                             then next else saved) l)
  = map (fun saved => if String.eqb (id saved) id_ then val next else saved)
        (map val l).
Proof.
  induction l as [|a l IH]; [done |]. cbn. rewrite IH.
  destruct (String.eqb (id (val a)) id_); reflexivity.
Qed.

Lemma upserted_idempotent (C : list Item) (next : Item) :
  upserted (upserted C (id next) next) (id next) next
  = upserted C (id next) next.
Proof.
  unfold upserted at 2 3.
  destruct (existsb _ C) eqn:Hex.
  - unfold upserted.
    assert (existsb (fun saved => String.eqb (id saved) (id next))
              (map (fun saved => if String.eqb (id saved) (id next)
                                 then next else saved) C) = true) as ->.
    { apply existsb_exists in Hex as (s & Hs & Heq).
      apply existsb_exists. exists next. split.
      - apply in_map_iff. exists s. rewrite Heq. done.
      - apply String.eqb_refl. }
    rewrite map_map. apply map_ext. intros a.
    destruct (String.eqb (id a) (id next)) eqn:Ha.
    + rewrite String.eqb_refl. reflexivity.
    + rewrite Ha. reflexivity.
  - unfold upserted.
    assert (existsb (fun saved => String.eqb (id saved) (id next))
              (C ++ [next]) = true) as ->.
    { rewrite existsb_app. cbn. rewrite String.eqb_refl.
      rewrite orb_true_r. reflexivity. }
    rewrite map_app. cbn. rewrite String.eqb_refl. f_equal.
    rewrite <- (map_id C) at 2. apply map_ext_in. intros a Ha.
    destruct (String.eqb (id a) (id next)) eqn:Heq; [| reflexivity].
    exfalso. assert (existsb (fun saved => String.eqb (id saved) (id next)) C
                     = true) as Habs.
    { apply existsb_exists. exists a. done. }
    congruence.
Qed.

Section Reconciler.

Variable nanoid : nat → string.
Variable Number : string → number.

(** The assumptions on the generator: identifiers are not empty and no
    two calls return the same one. *)
Hypothesis nanoid_nonempty : ∀ n, nanoid n ≠ "".
Hypothesis nanoid_inj : ∀ m n, nanoid m = nanoid n → m = n.

Abbreviation upsertItem := (upsertItem nanoid).
Abbreviation completed_id := (completed_id nanoid).

Lemma upsertItem_value (item : Item) (st : App) :
  val (fst (upsertItem item st)) = with_id (completed_id st (id item)) item.
Proof.
  unfold upsertItem, completed_id, id_or_nanoid.
  destruct (String.eqb (id item) ""); reflexivity.
Qed.

Lemma upsertItem_saved (item : Item) (st : App) :
  map val (savedItemsRef (snd (upsertItem item st)))
  = upserted (map val (savedItemsRef st)) (completed_id st (id item))
             (with_id (completed_id st (id item)) item).
Proof.
  unfold upsertItem, completed_id, id_or_nanoid, upserted.
  destruct (String.eqb (id item) ""); cbn;
    rewrite existsb_val;
    destruct (existsb _ (map val (savedItemsRef st)));
    unfold render, useDebounceValue_render; cbn;
    destruct (Nat.eqb _ _); cbn;
    rewrite ?map_val_replace, ?map_app; reflexivity.
Qed.

Lemma upsertItem_frame (item : Item) (st : App) :
  let st' := snd (upsertItem item st) in
  savedItems st' = savedItemsRef st'
  ∧ writes st' = writes st ++ [map val (savedItemsRef st')]
  ∧ nextId st' = (if String.eqb (id item) "" then S (nextId st) else nextId st)
  ∧ current st' = current st.
Proof.
  unfold upsertItem, id_or_nanoid.
  destruct (String.eqb (id item) ""); cbn;
    destruct (existsb _ _);
    unfold render, useDebounceValue_render; cbn;
    destruct (Nat.eqb _ _); cbn; done.
Qed.

Lemma completed_id_nonempty (st : App) (i : string) : completed_id st i ≠ "".
Proof using nanoid_nonempty.
  unfold completed_id. destruct (String.eqb_spec i ""); [apply nanoid_nonempty | done].
Qed.

(** What [upserted] holds under the identifier of [next]: [next], and
    nothing else. *)
Lemma upserted_members (C : list Item) (next : Item) :
  next ∈ upserted C (id next) next
  ∧ ∀ x, x ∈ upserted C (id next) next → id x = id next → x = next.
Proof.
  unfold upserted. destruct (existsb _ C) eqn:Hex.
  - split.
    + apply existsb_exists in Hex as (s & Hs & Heq).
      apply list_elem_of_In, in_map_iff. exists s. rewrite Heq. done.
    + intros x Hx Hid. apply list_elem_of_In, in_map_iff in Hx as (a & Ha & _).
      destruct (String.eqb_spec (id a) (id next)); congruence.
  - split.
    + apply elem_of_app. right. apply list_elem_of_singleton. reflexivity.
    + intros x Hx Hid. apply elem_of_app in Hx as [Hx | Hx].
      * exfalso.
        rewrite (existsb_id_true C (id next) x Hx Hid) in Hex. discriminate.
      * apply list_elem_of_singleton in Hx. exact Hx.
Qed.

(** C3. [upsertItem] first replaces an empty identifier by a freshly
    generated one, not empty and different from every identifier generated
    before, and leaves a non-empty identifier and every other field as they
    are: the completed item, which it returns, carries that identifier.
    When the Collection, whose identifiers are pairwise distinct, holds that
    identifier at position [k], the result is the Collection with position
    [k] replaced by the completed item and every other position unchanged;
    when it does not, the completed item is appended at the end.  In both
    cases the completed item is stored, and it is the only stored item with
    its identifier. *)
Theorem upsertItem_replace_or_append (st : App) (item : Item) :
  let C := map val (savedItemsRef st) in
  let id_ := if String.eqb (id item) "" then nanoid (nextId st) else id item in
  let nextItem := with_id id_ item in
  let st' := snd (upsertItem item st) in
  let returned := val (fst (upsertItem item st)) in
  returned = nextItem
  ∧ (id item = "" →
       id_ ≠ "" ∧ (∀ m, m < nextId st → nanoid m ≠ id_)
       ∧ nextId st' = S (nextId st))
  ∧ (∀ k s, NoDup (map id C) → C !! k = Some s → id s = id_ →
       map val (savedItemsRef st') = <[k := nextItem]> C)
  ∧ ((∀ s, s ∈ C → id s ≠ id_) →
       map val (savedItemsRef st') = C ++ [nextItem])
  ∧ savedItems st' = savedItemsRef st'
  ∧ writes st' = writes st ++ [map val (savedItemsRef st')]
  ∧ id returned = id_
  ∧ (id item = "" → id returned = nanoid (nextId st) ∧ id returned ≠ "")
  ∧ (id item ≠ "" → returned = item ∧ nextId st' = nextId st)
  ∧ name returned = name item
  ∧ (∀ f, get_field f returned = get_field f item)
  ∧ profitPercent returned = profitPercent item
  ∧ returned ∈ map val (savedItemsRef st')
  ∧ (∀ x, x ∈ map val (savedItemsRef st') → id x = id_ → x = returned)
  ∧ (∀ k s, NoDup (map id C) → C !! k = Some s → id s = id_ →
       map val (savedItemsRef st') !! k = Some returned
       ∧ id returned = id s
       ∧ ∀ j, j ≠ k → map val (savedItemsRef st') !! j = C !! j).
Proof using nanoid_nonempty nanoid_inj.
  cbv zeta. fold (completed_id st (id item)).
  pose proof (upsertItem_frame item st) as (Hsaved & Hwrites & Hnext & _).
  pose proof (upsertItem_value item st) as Hvalue.
  cbv zeta in Hsaved, Hwrites, Hnext.
  assert (∀ k s, NoDup (map id (map val (savedItemsRef st))) →
            map val (savedItemsRef st) !! k = Some s →
            id s = completed_id st (id item) →
            map val (savedItemsRef (snd (upsertItem item st)))
            = <[k := with_id (completed_id st (id item)) item]>
                (map val (savedItemsRef st))) as Hreplace.
  { intros k s Hnd Hk Hid. rewrite upsertItem_saved. unfold upserted.
    rewrite (existsb_id_true _ _ s); [| | exact Hid].
    - apply (replace_by_id_insert _ _ _ s); assumption.
    - apply list_elem_of_lookup. eauto. }
  pose proof (upserted_members (map val (savedItemsRef st))
                (with_id (completed_id st (id item)) item)) as [Hin Honly].
  cbn [id with_id] in Hin, Honly.
  split; [exact Hvalue |].
  split.
  { intros Hempty. split; [apply completed_id_nonempty |]. split.
    - intros m Hm Heq. unfold completed_id in Heq. rewrite Hempty in Heq.
      cbn in Heq. apply nanoid_inj in Heq. lia.
    - rewrite Hnext, Hempty. reflexivity. }
  split; [exact Hreplace |].
  split.
  { intros Hnone. rewrite upsertItem_saved. unfold upserted.
    rewrite existsb_id_false; [reflexivity | exact Hnone]. }
  split; [exact Hsaved |]. split; [exact Hwrites |].
  rewrite Hvalue.
  split; [reflexivity |].
  split.
  { intros Hempty. cbn [id with_id]. unfold completed_id. rewrite Hempty.
    split; [reflexivity | apply nanoid_nonempty]. }
  split.
  { intros Hne. unfold completed_id at 1. rewrite Hnext.
    destruct (String.eqb_spec (id item) ""); [done |].
    split; [apply with_id_id | reflexivity]. }
  split; [reflexivity |].
  split; [intros f; destruct f; reflexivity |].
  split; [reflexivity |].
  rewrite upsertItem_saved.
  split; [exact Hin |]. split; [exact Honly |].
  intros k s Hnd Hk Hid.
  rewrite <- upsertItem_saved, (Hreplace k s Hnd Hk Hid).
  split; [| split].
  - apply list_lookup_insert_eq. apply lookup_lt_Some in Hk. exact Hk.
  - cbn [id with_id]. congruence.
  - intros j Hj. apply list_lookup_insert_ne. congruence.
Qed.

(** C4, amended. Repeating [upsertItem] with the completed item that the
    first call returns leaves the Collection as the first call made it, and
    returns the same item; in particular, for an item whose identifier is
    not empty, upserting it twice gives the same Collection as upserting it
    once. *)
Theorem upsertItem_idempotent (st : App) (item : Item) :
  let r1 := upsertItem item st in
  let r2 := upsertItem (val (fst r1)) (snd r1) in
  map val (savedItemsRef (snd r2)) = map val (savedItemsRef (snd r1))
  ∧ val (fst r2) = val (fst r1)
  ∧ (id item ≠ "" →
       map val (savedItemsRef (snd (upsertItem item (snd r1))))
       = map val (savedItemsRef (snd r1))).
Proof using nanoid_nonempty.
  cbv zeta.
  assert (∀ st0 it, id it ≠ "" → completed_id st0 (id it) = id it) as Hcid.
  { intros st0 it Hne. unfold completed_id.
    destruct (String.eqb_spec (id it) ""); done. }
  assert (∀ st0 it, id it ≠ "" →
            map val (savedItemsRef (snd (upsertItem it (snd (upsertItem it st0)))))
            = map val (savedItemsRef (snd (upsertItem it st0)))) as Hrep.
  { intros st0 it Hne. rewrite !upsertItem_saved, !Hcid, with_id_id by exact Hne.
    apply upserted_idempotent. }
  split; [| split].
  - rewrite upsertItem_value.
    set (next := with_id (completed_id st (id item)) item).
    assert (id next ≠ "") as Hne by apply completed_id_nonempty.
    rewrite (upsertItem_saved next), (upsertItem_saved item).
    rewrite (Hcid _ next Hne). rewrite with_id_id.
    fold next. change (completed_id st (id item)) with (id next).
    apply upserted_idempotent.
  - rewrite !upsertItem_value.
    set (next := with_id (completed_id st (id item)) item).
    assert (id next ≠ "") as Hne by apply completed_id_nonempty.
    rewrite (Hcid _ next Hne). apply with_id_id.
  - intros Hne. apply Hrep, Hne.
Qed.

End Reconciler.

Lemma upsertItem_replace_or_append_witness :
  let st := mount [saved_mugs; saved_cups] in
  let replaced := upsertItem sample_nanoid (with_name "Glasses" saved_cups) st in
  let appended := upsertItem sample_nanoid named_draft st in
  map val (savedItemsRef (snd replaced))
  = [saved_mugs; with_name "Glasses" saved_cups]
  ∧ map val (savedItemsRef (snd appended))
    = [saved_mugs; saved_cups; with_id "i0" named_draft]
  ∧ id (val (fst appended)) = "i0"
  ∧ nextId (snd appended) = 1.
Proof.
  cbv zeta.
  pose proof (upsertItem_replace_or_append sample_nanoid
                sample_nanoid_nonempty sample_nanoid_inj
                (mount [saved_mugs; saved_cups]) (with_name "Glasses" saved_cups))
    as (_ & _ & Hreplace & _).
  pose proof (upsertItem_replace_or_append sample_nanoid
                sample_nanoid_nonempty sample_nanoid_inj
                (mount [saved_mugs; saved_cups]) named_draft)
    as (_ & Hfresh & _ & Happend & _ & _ & _ & Hid & _).
  split; [| split; [| split]].
  - apply (Hreplace 1 saved_cups).
    + apply NoDup_cons. split; [| apply NoDup_singleton].
      rewrite list_elem_of_singleton. discriminate.
    + reflexivity.
    + reflexivity.
  - apply Happend. intros s Hs.
    apply list_elem_of_In in Hs. cbn in Hs.
    destruct Hs as [<- | [<- | []]]; discriminate.
  - apply (proj1 (Hid eq_refl)).
  - apply (Hfresh eq_refl).
Defined.

(** C4, as stated, fails: upserting an unanchored item twice appends it
    twice, under two different identifiers. *)
Lemma upsertItem_unanchored_twice :
  let st := mount [] in
  let once := snd (upsertItem sample_nanoid named_draft st) in
  let twice := snd (upsertItem sample_nanoid named_draft once) in
  map val (savedItemsRef once) = [with_id "i0" named_draft]
  ∧ map val (savedItemsRef twice)
    = [with_id "i0" named_draft; with_id "i1" named_draft]
  ∧ map val (savedItemsRef twice) ≠ map val (savedItemsRef once).
Proof. vm_compute. repeat split. discriminate. Qed.

Lemma upsertItem_idempotent_witness :
  let r1 := upsertItem sample_nanoid saved_mugs (mount []) in
  id saved_mugs ≠ ""
  ∧ map val (savedItemsRef (snd (upsertItem sample_nanoid saved_mugs (snd r1))))
    = map val (savedItemsRef (snd r1)).
Proof.
  cbv zeta. split; [discriminate |].
  apply (upsertItem_idempotent sample_nanoid sample_nanoid_nonempty
           (mount []) saved_mugs).
  discriminate.
Defined.

(** ** Draft session *)

Section Draft.

Variable nanoid : nat → string.
Variable Number : string → number.

Hypothesis nanoid_nonempty : ∀ n, nanoid n ≠ "".
Hypothesis nanoid_inj : ∀ m n, nanoid m = nanoid n → m = n.

Abbreviation completed_id := (completed_id nanoid).
Abbreviation anchors := (anchors nanoid).

Lemma render_current (st : App) : current (render st) = current st.
Proof.
  unfold render, useDebounceValue_render. destruct (Nat.eqb _ _); reflexivity.
Qed.

Lemma render_nextId (st : App) : nextId (render st) = nextId st.
Proof.
  unfold render, useDebounceValue_render. destruct (Nat.eqb _ _); reflexivity.
Qed.

Lemma edit_current (v : Item → Item) (st : App) :
  let prev := val (current st) in
  let st1 := snd (id_or_nanoid nanoid (id prev) st) in
  let id_ := fst (id_or_nanoid nanoid (id prev) st) in
  val (current (setCurrent_new (v (with_id id_ prev)) st1))
  = v (with_id (completed_id st (id prev)) prev)
  ∧ nextId (setCurrent_new (v (with_id id_ prev)) st1)
    = (if String.eqb (id prev) "" then S (nextId st) else nextId st).
Proof.
  cbv zeta. unfold setCurrent_new, alloc, id_or_nanoid, completed_id.
  rewrite render_current, render_nextId.
  destruct (String.eqb (id (val (current st))) ""); cbn; done.
Qed.

Lemma anchors_intro (st st' : App) :
  id (val (current st')) = completed_id st (id (val (current st))) →
  nextId st'
  = (if String.eqb (id (val (current st))) "" then S (nextId st)
     else nextId st) →
  anchors st st'.
Proof using nanoid_nonempty nanoid_inj.
  intros Hid Hnext. unfold anchors, completed_id in *. cbv zeta.
  destruct (String.eqb_spec (id (val (current st))) "") as [Heq | Hne].
  - split; [| done]. intros _. rewrite Hid.
    split; [done |]. split; [apply nanoid_nonempty |]. split; [| done].
    intros m Hm Hmn. apply nanoid_inj in Hmn. lia.
  - split; [done |]. intros _. done.
Qed.

(** C8. Each of the three edit handlers, applied to an unanchored Draft,
    gives the Draft the next generated identifier (not empty, never
    generated before) in the same update that changes the field; applied
    to an anchored Draft, it leaves the identifier as it is. *)
Theorem edit_anchors_draft (st : App) :
  let prev := val (current st) in
  let id_ := completed_id st (id prev) in
  (∀ value,
     let st' := handleNameChange nanoid value st in
     anchors st st'
     ∧ val (current st') = with_name (or_else value "Untitled") (with_id id_ prev))
  ∧ (∀ field value,
       let st' := handleNumberChange nanoid Number field value st in
       anchors st st'
       ∧ val (current st')
         = with_field field
             (if truthy (Number value) then Number value else zero)
             (with_id id_ prev))
  ∧ (∀ value,
       let st' := handleProfitChange nanoid Number value st in
       anchors st st'
       ∧ val (current st')
         = with_profitPercent
             (if includes PROFIT_OPTIONS (Number value) then Number value
              else n0_2)
             (with_id id_ prev)).
Proof using nanoid_nonempty nanoid_inj.
  cbv zeta. split; [| split].
  - intros value.
    pose proof (edit_current (with_name (or_else value "Untitled")) st)
      as [Hval Hnext]. cbv zeta in Hval, Hnext.
    unfold handleNameChange.
    destruct (id_or_nanoid nanoid (id (val (current st))) st) as [i st1].
    cbn [fst snd] in Hval, Hnext.
    split; [| exact Hval].
    apply anchors_intro; [rewrite Hval; reflexivity | exact Hnext].
  - intros field value.
    pose proof (edit_current
                  (with_field field
                     (if truthy (Number value) then Number value else zero))
                  st) as [Hval Hnext]. cbv zeta in Hval, Hnext.
    unfold handleNumberChange.
    destruct (id_or_nanoid nanoid (id (val (current st))) st) as [i st1].
    cbn [fst snd] in Hval, Hnext.
    split; [| exact Hval].
    apply anchors_intro; [rewrite Hval; destruct field; reflexivity | exact Hnext].
  - intros value.
    pose proof (edit_current
                  (with_profitPercent
                     (if includes PROFIT_OPTIONS (Number value)
                      then Number value else n0_2))
                  st) as [Hval Hnext]. cbv zeta in Hval, Hnext.
    unfold handleProfitChange.
    destruct (id_or_nanoid nanoid (id (val (current st))) st) as [i st1].
    cbn [fst snd] in Hval, Hnext.
    split; [| exact Hval].
    apply anchors_intro; [rewrite Hval; reflexivity | exact Hnext].
Qed.

End Draft.

Lemma edit_anchors_draft_witness :
  let st := mount [] in
  let st' := handleNumberChange sample_nanoid sample_Number Fquantity "3" st in
  id (val (current st)) = ""
  ∧ id (val (current st')) = "i0"
  ∧ quantity (val (current st')) = of_pos 3.
Proof.
  cbv zeta.
  pose proof (edit_anchors_draft sample_nanoid sample_Number
                sample_nanoid_nonempty sample_nanoid_inj (mount []))
    as (_ & Hnumber & _).
  destruct (Hnumber Fquantity "3") as [[Hfresh _] Hval].
  split; [reflexivity |]. split.
  - apply (proj1 (Hfresh eq_refl)).
  - rewrite Hval. reflexivity.
Defined.

(** ** Autosave scheduler *)

Section Scheduler.

Variable nanoid : nat → string.
Variable Number : string → number.

Abbreviation step := (step nanoid Number).
Abbreviation elapse := (elapse nanoid).
Abbreviation reachable := (reachable nanoid Number).

Lemma isEmpty_isBlankNewItem (item : Item) : isEmpty item = isBlankNewItem item.
Proof. reflexivity. Qed.

(** A render changes nothing once the hook has seen the current Draft. *)
Lemma render_seen (st : App) :
  previousValueRef st = current st → render st = st.
Proof.
  intros H. unfold render, useDebounceValue_render.
  rewrite H, Nat.eqb_refl. reflexivity.
Qed.

(** Installing another object as the Draft restarts the timer with it. *)
Lemma render_changed (o : Obj) (st : App) :
  addr (previousValueRef st) ≠ addr o →
  render (set_current o st)
  = set_previousValueRef o
      (set_debounceTimer (Some (quietWindow, o)) (set_current o st)).
Proof.
  intros H. unfold render, useDebounceValue_render. cbn.
  destruct (Nat.eqb_spec (addr (previousValueRef st)) (addr o)); [done |].
  reflexivity.
Qed.

Lemma setCurrent_new_restarts (v : Item) (st : App) :
  addr (previousValueRef st) < nextAddr st →
  setCurrent_new v st
  = set_previousValueRef (mkObj (nextAddr st) v)
      (set_debounceTimer (Some (quietWindow, mkObj (nextAddr st) v))
         (set_current (mkObj (nextAddr st) v)
            (set_nextAddr (S (nextAddr st)) st))).
Proof.
  intros H. unfold setCurrent_new, alloc.
  rewrite render_changed; [reflexivity |]. cbn. lia.
Qed.

Lemma Forall_addr_mono (n m : nat) (l : list Obj) :
  n ≤ m → Forall (fun o => addr o < n) l → Forall (fun o => addr o < m) l.
Proof.
  intros Hle H. eapply Forall_impl; [exact H |]. cbn. intros o Ho. lia.
Qed.

Lemma scheduled_restart (v : Item) (st : App) :
  Scheduled st → Scheduled (setCurrent_new v st).
Proof.
  intros [Hm Ha Hp Hs Ht Hc Hv].
  rewrite setCurrent_new_restarts by (rewrite Hp; exact Hc).
  constructor; cbn; try done.
  - intros r w [= <- <-]. split; [done |]. unfold quietWindow. lia.
  - lia.
  - eapply Forall_addr_mono; [| exact Hv]. lia.
Qed.

Lemma scheduled_id_or_nanoid (i : string) (st : App) :
  Scheduled st → Scheduled (snd (id_or_nanoid nanoid i st)).
Proof.
  intros [Hm Ha Hp Hs Ht Hc Hv]. unfold id_or_nanoid.
  destruct (String.eqb i ""); constructor; cbn; done.
Qed.

Lemma scheduled_persistItems (items : list Obj) (st : App) :
  Scheduled st → Forall (fun o => addr o < nextAddr st) items →
  Scheduled (persistItems items st).
Proof.
  intros [Hm Ha Hp Hs Ht Hc Hv] Hitems. constructor; cbn; done.
Qed.

Lemma scheduled_setCurrent (item : Obj) (st : App) :
  Scheduled st → addr item < nextAddr st → Scheduled (setCurrent item st).
Proof.
  intros H Hitem. unfold setCurrent.
  destruct (Nat.eqb_spec (addr item) (addr (current st))) as [| Hne]; [done |].
  destruct H as [Hm Ha Hp Hs Ht Hc Hv].
  rewrite render_changed by (rewrite Hp; congruence).
  constructor; cbn; try done.
  intros r w [= <- <-]. split; [done |]. unfold quietWindow. lia.
Qed.

(** [upsertItem] in a scheduled state: the render it causes is idle. *)
Lemma upsertItem_scheduled_eq (item : Item) (st : App) :
  previousValueRef st = current st →
  let id_ := completed_id nanoid st (id item) in
  let nextItem := mkObj (nextAddr st) (with_id id_ item) in
  let updated :=
    if existsb (fun saved => String.eqb (id (val saved)) id_) (savedItemsRef st)
    then map (fun saved => if String.eqb (id (val saved)) id_
                           then nextItem else saved) (savedItemsRef st)
    else savedItemsRef st ++ [nextItem] in
  snd (upsertItem nanoid item st)
  = persistItems updated
      (set_nextAddr (S (nextAddr st)) (snd (id_or_nanoid nanoid (id item) st))).
Proof.
  intros Hp. cbv zeta. unfold upsertItem, completed_id, id_or_nanoid, alloc.
  destruct (String.eqb (id item) ""); cbn [fst snd];
    rewrite render_seen by exact Hp; reflexivity.
Qed.

Lemma scheduled_upsertItem (item : Item) (st : App) :
  Scheduled st → Scheduled (snd (upsertItem nanoid item st)).
Proof.
  intros H. rewrite upsertItem_scheduled_eq by apply H.
  assert (savedItemsRef (snd (id_or_nanoid nanoid (id item) st))
          = savedItemsRef st) as Href
    by (unfold id_or_nanoid; destruct (String.eqb _ _); reflexivity).
  assert (nextAddr (snd (id_or_nanoid nanoid (id item) st))
          = nextAddr st) as Hnext
    by (unfold id_or_nanoid; destruct (String.eqb _ _); reflexivity).
  apply (scheduled_id_or_nanoid (id item)) in H.
  revert H Href Hnext.
  generalize (snd (id_or_nanoid nanoid (id item) st)) as st1.
  intros st1 [Hm Ha Hp Hs Ht Hc Hv] Href Hnext.
  assert (Forall (fun o => addr o < S (nextAddr st)) (savedItemsRef st)) as Hold.
  { rewrite <- Href, <- Hs, <- Hnext.
    eapply Forall_addr_mono; [| exact Hv]. lia. }
  constructor; cbn; try done.
  - lia.
  - destruct (existsb _ _).
    + apply Forall_fmap. eapply Forall_impl; [exact Hold |]. cbn.
      intros o Ho. destruct (String.eqb _ _); cbn; lia.
    + apply Forall_app. split; [exact Hold |].
      apply Forall_singleton. cbn. lia.
Qed.

Lemma elapse_idle (ms : N) (st : App) :
  Scheduled st → debounceTimer st = None → elapse ms st = st.
Proof.
  intros [Hm Ha Hp Hs Ht Hc Hv] Hnone. unfold elapse, fireAutosave.
  rewrite Ha, Hnone. reflexivity.
Qed.

Lemma elapse_wait (ms r : N) (v : Obj) (st : App) :
  Scheduled st → debounceTimer st = Some (r, v) → (ms < r)%N →
  elapse ms st = set_debounceTimer (Some ((r - ms)%N, v)) st.
Proof.
  intros [Hm Ha Hp Hs Ht Hc Hv] Hsome Hlt. unfold elapse, fireAutosave.
  rewrite Ha, Hsome. destruct (N.leb_spec r ms); [lia | reflexivity].
Qed.

(** The quiet-period timer fires: the debounced value becomes the Draft,
    and the effect upserts it unless it is blank. *)
Lemma elapse_fire (ms r : N) (v : Obj) (st : App) :
  Scheduled st → debounceTimer st = Some (r, v) → (r ≤ ms)%N →
  elapse ms st
  = if Nat.eqb (addr v) (addr (debouncedCurrent st))
    then set_debounceTimer None st
    else if isEmpty (val v)
         then set_debouncedCurrent v (set_debounceTimer None st)
         else snd (upsertItem nanoid (val v)
                     (set_debouncedCurrent v (set_debounceTimer None st))).
Proof.
  intros [Hm Ha Hp Hs Ht Hc Hv] Hsome Hle. unfold elapse.
  assert (fireAutosave nanoid st = st) as Hidle
    by (unfold fireAutosave; rewrite Ha; reflexivity).
  rewrite !Hidle, Hsome.
  destruct (N.leb_spec r ms); [| lia].
  unfold setDebouncedValue. cbn [debouncedCurrent set_debounceTimer].
  destruct (Nat.eqb (addr v) (addr (debouncedCurrent st))).
  { unfold fireAutosave. cbn. rewrite Ha. reflexivity. }
  rewrite render_seen by exact Hp.
  unfold autosaveEffect. cbn. rewrite Hm. cbn.
  destruct (isEmpty (val v)).
  - unfold fireAutosave. cbn. destruct st; cbn in *; subst; reflexivity.
  - unfold fireAutosave. cbn. destruct st; cbn in *; subst; reflexivity.
Qed.

Lemma scheduled_elapse (ms : N) (st : App) :
  Scheduled st → Scheduled (elapse ms st).
Proof.
  intros H. destruct (debounceTimer st) as [[r v] |] eqn:Htimer.
  - destruct (N.leb_spec r ms) as [Hle | Hlt].
    + rewrite (elapse_fire ms r v) by assumption.
      assert (Scheduled (set_debounceTimer None st)) as H0
        by (destruct H; constructor; cbn; done).
      assert (Scheduled (set_debouncedCurrent v (set_debounceTimer None st)))
        as H1 by (destruct H; constructor; cbn; done).
      destruct (Nat.eqb _ _); [exact H0 |].
      destruct (isEmpty _); [exact H1 |].
      apply scheduled_upsertItem, H1.
    + rewrite (elapse_wait ms r v) by assumption.
      destruct H as [Hm Ha Hp Hs Ht Hc Hv]. constructor; cbn; try done.
      intros r' w [= <- <-]. destruct (Ht r v Htimer) as [-> Hr].
      split; [done | lia].
  - rewrite elapse_idle by assumption. exact H.
Qed.

Lemma find_addr (f : Obj → bool) (l : list Obj) (o : Obj) (n : nat) :
  Forall (fun o => addr o < n) l → find f l = Some o → addr o < n.
Proof.
  intros Hall Hfind. apply find_some in Hfind as [Hin _].
  rewrite Forall_forall in Hall. apply Hall, list_elem_of_In, Hin.
Qed.

Lemma scheduled_edit (v : Item → Item) (st : App) :
  Scheduled st →
  Scheduled
    (let '(id_, st1) := id_or_nanoid nanoid (id (val (current st))) st in
     setCurrent_new (v (with_id id_ (val (current st)))) st1).
Proof.
  intros H. pose proof (scheduled_id_or_nanoid (id (val (current st))) st H).
  destruct (id_or_nanoid nanoid (id (val (current st))) st) as [i st1].
  apply scheduled_restart. assumption.
Qed.

Lemma scheduled_step (st : App) (e : Event) :
  Scheduled st → Scheduled (step st e).
Proof.
  intros H. destruct e as [value | field value | value | i | i | | ms]; cbn.
  - apply (scheduled_edit (with_name (or_else value "Untitled"))), H.
  - apply (scheduled_edit (with_field field _)), H.
  - apply (scheduled_edit (with_profitPercent _)), H.
  - unfold handleLoad. destruct (find _ _) as [item |] eqn:Hfind; [| exact H].
    apply scheduled_setCurrent; [exact H |].
    eapply find_addr; [apply H | exact Hfind].
  - unfold handleDelete.
    assert (Scheduled (persistItems
              (filter (fun item => id (val item) ≠ i) (savedItems st)) st)) as H1.
    { apply scheduled_persistItems; [exact H |].
      apply Forall_forall. intros o Ho.
      apply list_elem_of_filter in Ho as [_ Ho].
      destruct H as [_ _ _ _ _ _ Hv]. rewrite Forall_forall in Hv. auto. }
    destruct (String.eqb _ _).
    + apply scheduled_restart, H1.
    + rewrite render_seen; [exact H1 | apply H].
  - apply scheduled_restart, H.
  - apply scheduled_elapse, H.
Qed.

Lemma scheduled_mount (loaded : list Item) : Scheduled (mount loaded).
Proof.
  unfold mount, autosaveEffect. cbn. constructor; cbn; try done.
  - lia.
  - apply Forall_forall. intros o Ho.
    apply list_elem_of_lookup in Ho as [k Hk].
    rewrite list_lookup_imap in Hk.
    destruct (loaded !! k) eqn:Hl; [| done].
    injection Hk as <-. cbn. apply lookup_lt_Some in Hl. lia.
Qed.

Theorem reachable_scheduled (loaded : list Item) (st : App) :
  reachable loaded st → Scheduled st.
Proof.
  induction 1 as [| st e _ IH]; [apply scheduled_mount |].
  apply scheduled_step, IH.
Qed.

(** *** Draft changes restart the timer and write nothing *)

Lemma restarted_setCurrent_new (v : Item) (st0 st : App) :
  Scheduled st →
  writes st = writes st0 → savedItemsRef st = savedItemsRef st0 →
  debouncedCurrent st = debouncedCurrent st0 →
  restarted st0 (setCurrent_new v st).
Proof.
  intros H Hw Hr Hd.
  rewrite setCurrent_new_restarts
    by (destruct H as [_ _ Hp _ _ Hc _]; rewrite Hp; exact Hc).
  repeat split; cbn; assumption.
Qed.

Lemma restarted_edit (v : Item → Item) (st : App) :
  Scheduled st →
  restarted st
    (let '(id_, st1) := id_or_nanoid nanoid (id (val (current st))) st in
     setCurrent_new (v (with_id id_ (val (current st)))) st1).
Proof.
  intros H. pose proof (scheduled_id_or_nanoid (id (val (current st))) st H) as H1.
  unfold id_or_nanoid in *.
  destruct (String.eqb (id (val (current st))) "");
    apply restarted_setCurrent_new; done.
Qed.

Lemma draft_change_restarts (st : App) (e : Event) :
  Scheduled st → isDraftEvent e = true → changesDraft nanoid Number st e = true →
  restarted st (step st e).
Proof.
  intros H Hdraft Hchange. unfold changesDraft in Hchange.
  destruct e as [value | field value | value | i | i | | ms];
    try discriminate; cbn in *.
  - apply (restarted_edit (with_name (or_else value "Untitled"))), H.
  - apply (restarted_edit (with_field field _)), H.
  - apply (restarted_edit (with_profitPercent _)), H.
  - unfold handleLoad, setCurrent in *.
    destruct (find _ _) as [item |];
      [| rewrite Nat.eqb_refl in Hchange; discriminate].
    destruct (Nat.eqb_spec (addr item) (addr (current st))) as [| Hne];
      [rewrite Nat.eqb_refl in Hchange; discriminate |].
    destruct H as [_ _ Hp _ _ _ _].
    rewrite render_changed by (rewrite Hp; congruence).
    repeat split.
  - apply restarted_setCurrent_new; done.
Qed.

(** An edit or a reset always changes the Draft: it builds a new object. *)
Lemma edit_changes_draft (st : App) (e : Event) :
  Scheduled st →
  match e with Load _ | Delete _ | Elapse _ => False | _ => True end →
  changesDraft nanoid Number st e = true.
Proof.
  intros H He. unfold changesDraft. apply negb_true_iff, Nat.eqb_neq.
  assert (∀ v st1, Scheduled st1 → nextAddr st1 = nextAddr st →
            addr (current (setCurrent_new v st1)) ≠ addr (current st)) as Hnew.
  { intros v st1 H1 Hnext. rewrite setCurrent_new_restarts
      by (destruct H1 as [_ _ Hp _ _ Hc _]; rewrite Hp; exact Hc).
    cbn. rewrite Hnext. destruct H as [_ _ _ _ _ Hc _]. lia. }
  pose proof (scheduled_id_or_nanoid (id (val (current st))) st H) as H1.
  destruct e as [value | field value | value | i | i | | ms]; try done; cbn;
    [unfold handleNameChange | unfold handleNumberChange
     | unfold handleProfitChange | apply Hnew; done];
    unfold id_or_nanoid in *;
    destruct (String.eqb (id (val (current st))) ""); apply Hnew; done.
Qed.

Lemma run_burst_cons (st : App) (gap : N) (e : Event) (b : list (N * Event)) :
  run_burst nanoid Number st ((gap, e) :: b)
  = run_burst nanoid Number (step (elapse gap st) e) b.
Proof. reflexivity. Qed.

(** Throughout a quiet burst nothing is written and the Collection is as
    it was; at its end the timer is pending with the last Draft value. *)
Lemma quiet_burst_writes_nothing (b : list (N * Event)) (st : App) :
  Scheduled st → debounceTimer st = Some (quietWindow, current st) →
  quiet_burst nanoid Number st b = true →
  let st1 := run_burst nanoid Number st b in
  Scheduled st1 ∧ restarted st st1.
Proof.
  revert st. induction b as [| [gap e] b IH]; intros st H Htimer Hquiet.
  - cbn. split; [exact H |]. repeat split. exact Htimer.
  - cbn in Hquiet. rewrite !andb_true_iff in Hquiet.
    destruct Hquiet as [[[Hgap Hdraft] Hchange] Hrest].
    apply N.ltb_lt in Hgap.
    rewrite run_burst_cons. cbv zeta.
    pose proof (scheduled_elapse gap st H) as Hsch.
    assert (elapse gap st
            = set_debounceTimer (Some ((quietWindow - gap)%N, current st)) st)
      as Hwait by (apply elapse_wait; assumption).
    pose proof (draft_change_restarts _ e Hsch Hdraft Hchange)
      as (Ht & Hw & Hr & Hd).
    destruct (IH (step (elapse gap st) e)) as (Hsch1 & Ht1 & Hw1 & Hr1 & Hd1);
      [apply scheduled_step, Hsch | exact Ht | exact Hrest |].
    split; [exact Hsch1 |]. unfold restarted.
    rewrite Ht1, Hw1, Hr1, Hd1, Hw, Hr, Hd, Hwait. repeat split.
Qed.

Lemma upsertItem_writes (item : Item) (st : App) :
  let id_ := completed_id nanoid st (id item) in
  writes (snd (upsertItem nanoid item st))
  = writes st ++ [upserted (map val (savedItemsRef st)) id_ (with_id id_ item)].
Proof.
  cbv zeta.
  pose proof (upsertItem_frame nanoid item st) as (_ & Hw & _).
  rewrite Hw, upsertItem_saved. reflexivity.
Qed.

(** The writes caused by the passing of time, whatever its length. *)
Lemma elapse_writes (ms : N) (st : App) :
  Scheduled st →
  writes (elapse ms st) = writes st
  ∨ (∃ r, debounceTimer st = Some (r, current st) ∧ (r ≤ ms)%N)
    ∧ isEmpty (val (current st)) = false
    ∧ let last := val (current st) in
      let id_ := completed_id nanoid st (id last) in
      writes (elapse ms st)
      = writes st ++ [upserted (map val (savedItemsRef st)) id_ (with_id id_ last)].
Proof.
  intros H. destruct (debounceTimer st) as [[r v] |] eqn:Htimer.
  - destruct (N.leb_spec r ms) as [Hle | Hlt].
    + rewrite (elapse_fire ms r v) by assumption.
      destruct H as [_ _ _ _ Ht _ _]. destruct (Ht r v Htimer) as [-> _].
      destruct (Nat.eqb _ _); [left; reflexivity |].
      destruct (isEmpty _) eqn:Hempty; [left; reflexivity |].
      right. split; [eauto |]. split; [reflexivity |].
      rewrite upsertItem_writes. reflexivity.
    + rewrite (elapse_wait ms r v) by assumption. left. reflexivity.
  - rewrite elapse_idle by assumption. left. reflexivity.
Qed.

(** C1. After session mount, let a first change of the Draft be followed
    by any finite burst of further changes (edits, reloads, resets), each
    less than one quiet window after the one before.  Nothing is written
    during the burst.  Once a full window has elapsed after the last
    change, at most one write has been made: none when the last Draft
    value is blank or is the object already debounced, and otherwise
    exactly one, which upserts the last value of the burst into the
    Collection as it was before the burst.  The timer is then idle, so no
    later passing of time writes anything more. *)
Theorem autosave_coalesces (loaded : list Item) (st : App) (e0 : Event)
    (b : list (N * Event)) (ms : N) :
  reachable loaded st →
  isDraftEvent e0 = true → changesDraft nanoid Number st e0 = true →
  quiet_burst nanoid Number (step st e0) b = true →
  (quietWindow ≤ ms)%N →
  let st1 := run_burst nanoid Number (step st e0) b in
  let last := val (current st1) in
  let id_ := completed_id nanoid st1 (id last) in
  writes st1 = writes st
  ∧ savedItemsRef st1 = savedItemsRef st
  ∧ writes (elapse ms st1)
    = writes st1 ++
      (if Nat.eqb (addr (current st1)) (addr (debouncedCurrent st1))
          || isEmpty last
       then []
       else [upserted (map val (savedItemsRef st)) id_ (with_id id_ last)])
  ∧ ∀ ms', writes (elapse ms' (elapse ms st1)) = writes (elapse ms st1).
Proof.
  intros Hreach Hdraft Hchange Hquiet Hms. cbv zeta.
  pose proof (reachable_scheduled loaded st Hreach) as H.
  pose proof (draft_change_restarts st e0 H Hdraft Hchange)
    as (Ht & Hw & Hr & Hd).
  destruct (quiet_burst_writes_nothing b (step st e0))
    as (H1 & Ht1 & Hw1 & Hr1 & Hd1);
    [apply scheduled_step, H | exact Ht | exact Hquiet |].
  set (st1 := run_burst nanoid Number (step st e0) b) in *.
  split; [congruence |]. split; [congruence |].
  pose proof (elapse_fire ms quietWindow (current st1) st1 H1 Ht1 Hms) as Hfire.
  assert (Scheduled (set_debounceTimer None st1)) as Hidle0
    by (destruct H1; constructor; cbn; done).
  assert (Scheduled (set_debouncedCurrent (current st1)
                       (set_debounceTimer None st1))) as Hidle1
    by (destruct H1; constructor; cbn; done).
  destruct (Nat.eqb _ _); cbn [orb].
  { rewrite Hfire. cbn. split; [rewrite app_nil_r; reflexivity |].
    intros ms'. rewrite elapse_idle; done. }
  destruct (isEmpty _).
  { rewrite Hfire. cbn. split; [rewrite app_nil_r; reflexivity |].
    intros ms'. rewrite elapse_idle; done. }
  rewrite Hfire. split.
  - rewrite upsertItem_writes. cbn. rewrite <- Hr, <- Hr1. reflexivity.
  - intros ms'. rewrite elapse_idle; [reflexivity | |].
    + apply scheduled_upsertItem, Hidle1.
    + rewrite upsertItem_scheduled_eq by (cbn; apply H1).
      unfold id_or_nanoid. destruct (String.eqb _ _); reflexivity.
Qed.

End Scheduler.

(** ** What can be stored *)

Section Soundness.

Variable nanoid : nat → string.
Variable Number : string → number.
Hypothesis nanoid_nonempty : ∀ n, nanoid n ≠ "".

(** [P] is a property of Draft values and [Q] one of stored items. *)
Variables P Q : Item → Prop.
Hypothesis P_empty : P createEmptyItem.
Hypothesis P_id : ∀ d i, P d → i ≠ "" → P (with_id i d).
Hypothesis P_name : ∀ d v, P d → v ≠ "" → P (with_name v d).
Hypothesis P_field : ∀ d f v, P d → P (with_field f v d).
Hypothesis P_profit : ∀ d v, P d → P (with_profitPercent v d).
Hypothesis Q_P : ∀ x, Q x → P x.
Hypothesis P_Q : ∀ d i, P d → i ≠ "" → Q (with_id i d).

Lemma or_else_nonempty (s d : string) : d ≠ "" → or_else s d ≠ "".
Proof. unfold or_else. destruct (String.eqb_spec s ""); done. Qed.

Lemma sound_setCurrent_new (v : Item) (st0 st : App) :
  Scheduled st → Sound P Q st0 → P v →
  savedItemsRef st = savedItemsRef st0 → writes st = writes st0 →
  Sound P Q (setCurrent_new v st).
Proof.
  intros H [Hc Hs Hw] Hv Href Hwr.
  rewrite setCurrent_new_restarts
    by (destruct H as [_ _ Hp _ _ Hca _]; rewrite Hp; exact Hca).
  constructor; cbn; [exact Hv | rewrite Href; exact Hs | rewrite Hwr; exact Hw].
Qed.

Lemma sound_edit (v : Item → Item) (st : App) :
  Scheduled st → Sound P Q st →
  (∀ d, P d → P (v d)) →
  Sound P Q
    (let '(id_, st1) := id_or_nanoid nanoid (id (val (current st))) st in
     setCurrent_new (v (with_id id_ (val (current st)))) st1).
Proof using nanoid_nonempty P_id.
  intros H Hsound Hv.
  pose proof (scheduled_id_or_nanoid nanoid (id (val (current st))) st H) as H1.
  pose proof (completed_id_nonempty nanoid nanoid_nonempty st
                (id (val (current st)))) as Hne.
  unfold id_or_nanoid, completed_id in *.
  destruct (String.eqb (id (val (current st))) "");
    (eapply sound_setCurrent_new; [exact H1 | exact Hsound | | done | done]);
    apply Hv, P_id; [apply Hsound | exact Hne | apply Hsound | exact Hne].
Qed.

Lemma sound_upsertItem (item : Item) (st : App) :
  Scheduled st → Sound P Q st → P item →
  Sound P Q (snd (upsertItem nanoid item st)).
Proof using nanoid_nonempty P_Q.
  intros H [Hc Hs Hw] Hitem.
  pose proof (upsertItem_frame nanoid item st) as (_ & Hwrites & _ & Hcur).
  pose proof (upsertItem_saved nanoid item st) as Hsaved.
  cbv zeta in Hwrites, Hcur.
  assert (Forall Q (map val (savedItemsRef (snd (upsertItem nanoid item st)))))
    as Hnew.
  { rewrite Hsaved. unfold upserted.
    assert (Q (with_id (completed_id nanoid st (id item)) item)) as Hq
      by (apply P_Q; [exact Hitem | apply completed_id_nonempty, nanoid_nonempty]).
    apply Forall_fmap in Hs.
    destruct (existsb _ _).
    - apply Forall_fmap. eapply Forall_impl; [exact Hs |]. cbn.
      intros x Hx. destruct (String.eqb _ _); assumption.
    - apply Forall_app. split; [exact Hs | apply Forall_singleton, Hq]. }
  constructor.
  - rewrite Hcur. exact Hc.
  - apply Forall_fmap. exact Hnew.
  - rewrite Hwrites. apply Forall_app. split; [exact Hw |].
    apply Forall_singleton. exact Hnew.
Qed.

Lemma sound_elapse (ms : N) (st : App) :
  Scheduled st → Sound P Q st → Sound P Q (elapse nanoid ms st).
Proof using nanoid_nonempty P_Q.
  intros H Hsound. destruct (debounceTimer st) as [[r v] |] eqn:Htimer.
  - destruct (N.leb_spec r ms) as [Hle | Hlt].
    + rewrite (elapse_fire nanoid ms r v) by assumption.
      assert (v = current st) as -> by (destruct H as [_ _ _ _ Ht _ _];
                                        apply (Ht r v Htimer)).
      assert (Sound P Q (set_debounceTimer None st)) as H0
        by (destruct Hsound; constructor; cbn; done).
      assert (Sound P Q (set_debouncedCurrent (current st)
                           (set_debounceTimer None st))) as H1
        by (destruct Hsound; constructor; cbn; done).
      destruct (Nat.eqb _ _); [exact H0 |].
      destruct (isEmpty _); [exact H1 |].
      apply sound_upsertItem; [| exact H1 | apply Hsound].
      destruct H; constructor; cbn; done.
    + rewrite (elapse_wait nanoid ms r v) by assumption.
      destruct Hsound; constructor; cbn; done.
  - rewrite elapse_idle by assumption. exact Hsound.
Qed.

Lemma sound_step (st : App) (e : Event) :
  Scheduled st → Sound P Q st → Sound P Q (step nanoid Number st e).
Proof using All.
  intros H Hsound.
  destruct e as [value | field value | value | i | i | | ms]; cbn.
  - apply (sound_edit (with_name (or_else value "Untitled"))); try done.
    intros d Hd. apply P_name; [exact Hd | apply or_else_nonempty; done].
  - apply (sound_edit (with_field field _)); try done.
    intros d Hd. apply P_field, Hd.
  - apply (sound_edit (with_profitPercent _)); try done.
    intros d Hd. apply P_profit, Hd.
  - unfold handleLoad, setCurrent.
    destruct (find _ _) as [item |] eqn:Hfind; [| exact Hsound].
    destruct (Nat.eqb_spec (addr item) (addr (current st))) as [| Hne];
      [exact Hsound |].
    rewrite render_changed
      by (destruct H as [_ _ Hp _ _ _ _]; rewrite Hp; congruence).
    destruct Hsound as [Hc Hs Hw]. constructor; cbn; try done.
    apply Q_P. apply find_some in Hfind as [Hin _].
    destruct H as [_ _ _ Heq _ _ _]. rewrite Heq in Hin.
    rewrite Forall_forall in Hs. apply Hs, list_elem_of_In, Hin.
  - unfold handleDelete.
    set (filtered := filter (fun item => id (val item) ≠ i) (savedItems st)).
    assert (Forall (fun o => Q (val o)) filtered) as Hf.
    { apply Forall_forall. intros o Ho.
      apply list_elem_of_filter in Ho as [_ Ho].
      destruct H as [_ _ _ Heq _ _ _]. rewrite Heq in Ho.
      destruct Hsound as [_ Hs _]. rewrite Forall_forall in Hs. auto. }
    assert (Sound P Q (persistItems filtered st)) as H1.
    { destruct Hsound as [Hc Hs Hw]. constructor; cbn; try done.
      apply Forall_app. split; [exact Hw |].
      apply Forall_singleton, Forall_fmap, Hf. }
    assert (Scheduled (persistItems filtered st)) as Hsch.
    { apply scheduled_persistItems; [exact H |].
      apply Forall_forall. intros o Ho.
      apply list_elem_of_filter in Ho as [_ Ho].
      destruct H as [_ _ _ _ _ _ Hv]. rewrite Forall_forall in Hv. auto. }
    destruct (String.eqb _ _).
    + eapply sound_setCurrent_new; [exact Hsch | exact H1 | exact P_empty | done | done].
    + rewrite render_seen; [exact H1 | apply H].
  - eapply sound_setCurrent_new; [exact H | exact Hsound | exact P_empty | done | done].
  - apply sound_elapse; assumption.
Qed.

Lemma sound_mount (loaded : list Item) :
  Forall Q loaded → Sound P Q (mount loaded).
Proof using P_empty.
  intros Hl. unfold mount, autosaveEffect. cbn. constructor; cbn.
  - exact P_empty.
  - apply Forall_forall. intros o Ho.
    apply list_elem_of_lookup in Ho as [k Hk].
    rewrite list_lookup_imap in Hk.
    destruct (loaded !! k) eqn:Hlk; [| done].
    injection Hk as <-. cbn. rewrite Forall_forall in Hl.
    apply Hl. apply list_elem_of_lookup. eauto.
  - constructor.
Qed.

Theorem reachable_sound (loaded : list Item) (st : App) :
  Forall Q loaded → reachable nanoid Number loaded st → Sound P Q st.
Proof using All.
  intros Hl. induction 1 as [| st e Hreach IH]; [apply sound_mount, Hl |].
  apply sound_step; [| exact IH].
  apply (reachable_scheduled nanoid Number loaded), Hreach.
Qed.

End Soundness.

(** ** Item store *)

Lemma SFeqb_finite_eq (m : positive) (e : Z) (n : number) :
  SFeqb (S754_finite false m e) n = true → n = S754_finite false m e.
Proof.
  unfold SFeqb. destruct n as [[] | [] | | [] m' e']; cbn; try discriminate.
  destruct (Z.compare_spec e e') as [-> | |]; try discriminate.
  destruct (Pos.compare_cont Eq m m') eqn:Hm; try discriminate.
  intros _. apply Pos.compare_eq in Hm as ->. reflexivity.
Qed.

Lemma includes_PROFIT_OPTIONS (n : number) :
  includes PROFIT_OPTIONS n = true ↔ n = n0_2 ∨ n = n0_25 ∨ n = n0_3.
Proof.
  split.
  - unfold includes, PROFIT_OPTIONS. cbn. rewrite !orb_true_iff.
    intros [H | [H | [H | H]]]; [| | | discriminate];
      destruct n; try discriminate; apply SFeqb_finite_eq in H; auto.
  - intros [-> | [-> | ->]]; reflexivity.
Qed.

Lemma recover_backfilled (e : JValue) (r : JObject) :
  recover e = Some r → backfilled e r.
Proof.
  unfold recover, backfilled. intros Hr.
  assert (e ≠ JNull ∧
          r = <["profitPercent" :=
                  if includes_value (stored_profitPercent e)
                  then default JNull (stored_profitPercent e)
                  else JNum n0_2]> (ownProps e ∪ itemObj createEmptyItem))
    as [Hnull ->].
  { destruct e; cbn in Hr; try discriminate; injection Hr as <-; done. }
  split; [| split].
  - exact Hnull.
  - intros f Hf. rewrite lookup_insert_ne by done. rewrite lookup_union.
    destruct (ownProps e !! f), (itemObj createEmptyItem !! f); reflexivity.
  - rewrite lookup_insert_eq. unfold includes_value, accepted_profitPercent.
    destruct (stored_profitPercent e) as [[| | n | | |] |]; try reflexivity.
    destruct (includes PROFIT_OPTIONS n); reflexivity.
Qed.

Lemma accepted_profitPercent_options (p : option JValue) :
  accepted_profitPercent p = n0_2 ∨ accepted_profitPercent p = n0_25
  ∨ accepted_profitPercent p = n0_3.
Proof.
  unfold accepted_profitPercent.
  destruct p as [[| | n | | |] |]; auto.
  destruct (includes PROFIT_OPTIONS n) eqn:Hn; auto.
  apply includes_PROFIT_OPTIONS, Hn.
Qed.

Section Store.

Variable JSON_parse : string → option JValue.

Abbreviation loadSavedItems := (loadSavedItems JSON_parse).

Lemma loadSavedItems_array (raw : string) (l : list JValue) :
  JSON_parse raw = Some (JArr l) →
  loadSavedItems (Some raw) = []
  ∨ Forall2 (fun e r => recover e = Some r) l (loadSavedItems (Some raw)).
Proof.
  intros Hparse. unfold loadSavedItems, loadSavedItems_try.
  destruct (String.eqb raw ""); [left; reflexivity |].
  rewrite Hparse. cbn.
  destruct (mapM recover l) as [k |] eqn:Hk; [| left; reflexivity].
  right. apply mapM_Some_1, Hk.
Qed.

Lemma loadSavedItems_lookup (raw : string) (l : list JValue) (k : nat)
    (r : JObject) :
  JSON_parse raw = Some (JArr l) →
  loadSavedItems (Some raw) !! k = Some r →
  ∃ e, l !! k = Some e ∧ backfilled e r.
Proof.
  intros Hparse Hk.
  destruct (loadSavedItems_array raw l Hparse) as [Hnil | Hall].
  - rewrite Hnil in Hk. discriminate.
  - destruct (Forall2_lookup_r _ _ _ _ _ Hall Hk) as (e & He & Hrec).
    exists e. split; [exact He | apply recover_backfilled, Hrec].
Qed.

(** C7. [loadSavedItems] always returns a list: the empty one when the
    entry is missing or empty, when it cannot be parsed, and when the
    parsed value is not an array.  When it is an array, every record that
    is returned comes from the array element at the same position, has
    each property that the element lacks set to the value it has in the
    empty item, keeps the other properties of the element, and has a
    profitPercent that is 0.2, 0.25 or 0.3: the stored one when it is one
    of the three, and 0.2 otherwise.  Every element is recovered when none
    of them is [null]. *)
Theorem loadSavedItems_recovers :
  loadSavedItems None = []
  ∧ loadSavedItems (Some "") = []
  ∧ (∀ raw, JSON_parse raw = None → loadSavedItems (Some raw) = [])
  ∧ (∀ raw v, JSON_parse raw = Some v → (∀ l, v ≠ JArr l) →
       loadSavedItems (Some raw) = [])
  ∧ (∀ raw l k r, JSON_parse raw = Some (JArr l) →
       loadSavedItems (Some raw) !! k = Some r →
       ∃ e, l !! k = Some e ∧ backfilled e r
            ∧ ∃ n, r !! "profitPercent" = Some (JNum n)
                   ∧ (n = n0_2 ∨ n = n0_25 ∨ n = n0_3))
  ∧ (∀ raw l, JSON_parse raw = Some (JArr l) → raw ≠ "" →
       Forall (fun e => e ≠ JNull) l →
       length (loadSavedItems (Some raw)) = length l).
Proof.
  split; [reflexivity |]. split; [reflexivity |]. split; [| split; [| split]].
  - intros raw Hparse. unfold loadSavedItems, loadSavedItems_try.
    destruct (String.eqb raw ""); [reflexivity |]. rewrite Hparse. reflexivity.
  - intros raw v Hparse Hnot. unfold loadSavedItems, loadSavedItems_try.
    destruct (String.eqb raw ""); [reflexivity |]. rewrite Hparse. cbn.
    destruct v; try reflexivity. exfalso. eapply Hnot. reflexivity.
  - intros raw l k r Hparse Hk.
    destruct (loadSavedItems_lookup raw l k r Hparse Hk) as (e & He & Hb).
    exists e. split; [exact He |]. split; [exact Hb |].
    exists (accepted_profitPercent (stored_profitPercent e)).
    split; [apply Hb | apply accepted_profitPercent_options].
  - intros raw l Hparse Hraw Hnonnull.
    unfold loadSavedItems, loadSavedItems_try.
    destruct (String.eqb_spec raw ""); [done |]. rewrite Hparse. cbn.
    destruct (mapM recover l) as [k |] eqn:Hk.
    + cbn. symmetry. eapply Forall2_length, mapM_Some_1, Hk.
    + exfalso. apply mapM_None_1 in Hk. apply Exists_exists in Hk as (e & He & Hnone).
      rewrite Forall_forall in Hnonnull. apply (Hnonnull e He).
      destruct e; cbn in Hnone; try discriminate. reflexivity.
Qed.

End Store.

(** ** Blank drafts, names and deletion *)

Lemma map_val_filter (i : string) (l : list Obj) :
  map val (filter (fun item => id (val item) ≠ i) l)
  = filter (fun x => id x ≠ i) (map val l).
Proof.
  induction l as [| o l IH]; [reflexivity |].
  cbn [map]. rewrite !filter_cons. cbn.
  destruct (decide (id (val o) ≠ i)); cbn; rewrite IH; reflexivity.
Qed.

Section Session.

Variable nanoid : nat → string.
Variable Number : string → number.
Variable JSON_parse : string → option JValue.
Hypothesis nanoid_nonempty : ∀ n, nanoid n ≠ "".

Abbreviation reachable := (reachable nanoid Number).
Abbreviation elapse := (elapse nanoid).

(** C2, amended. When time passes while the Draft is blank, nothing is
    written.  Consequently the application never adds a blank Item to a
    persisted Collection: a blank Item that appears in a write was already
    in the Collection loaded at mount. *)
Theorem blank_draft_not_written (loaded : list Item) (st : App) :
  reachable loaded st →
  (∀ ms, isBlankNewItem (val (current st)) = true →
     writes (elapse ms st) = writes st)
  ∧ (∀ w x, w ∈ writes st → x ∈ w → isBlankNewItem x = true → x ∈ loaded).
Proof using nanoid_nonempty.
  intros Hreach. split.
  - intros ms Hblank.
    pose proof (reachable_scheduled nanoid Number loaded st Hreach) as H.
    destruct (elapse_writes nanoid ms st H) as [Hw | (_ & Hne & _)];
      [exact Hw |].
    rewrite isEmpty_isBlankNewItem in Hne. congruence.
  - intros w x Hw Hx Hblank.
    assert (Sound (fun _ => True) (fun x => x ∈ loaded ∨ id x ≠ "") st)
      as [_ _ Hwrites].
    { apply (reachable_sound nanoid Number nanoid_nonempty) with (loaded := loaded);
        try done.
      - intros d i _ Hi. right. exact Hi.
      - apply Forall_forall. intros y Hy. left. exact Hy. }
    rewrite Forall_forall in Hwrites. specialize (Hwrites w Hw).
    rewrite Forall_forall in Hwrites. destruct (Hwrites x Hx) as [Hin | Hid];
      [exact Hin |].
    unfold isBlankNewItem in Hblank. rewrite !andb_true_iff in Hblank.
    destruct Hblank as [[[[[Hb _] _] _] _] _].
    apply String.eqb_eq in Hb. contradiction.
Qed.

(** C9, amended. An edit of the name never leaves the Draft with an empty
    name: an empty input becomes Untitled.  [upsertItem] stores the name it
    is given.  [loadSavedItems] gives the name Untitled to a record that
    has none and keeps a stored name as it is, also when it is empty.
    Hence, in a session that loaded only items with a name, every Item
    written has a name. *)
Theorem names_in_stored_data :
  (∀ st value,
     name (val (current (handleNameChange nanoid value st))) ≠ ""
     ∧ (value = "" →
          name (val (current (handleNameChange nanoid value st))) = "Untitled"))
  ∧ (∀ st item, name (val (fst (upsertItem nanoid item st))) = name item)
  ∧ (∀ raw l k r, JSON_parse raw = Some (JArr l) →
       loadSavedItems JSON_parse (Some raw) !! k = Some r →
       ∃ e, l !! k = Some e
            ∧ r !! "name" = match ownProps e !! "name" with
                            | Some v => Some v
                            | None => Some (JStr "Untitled")
                            end)
  ∧ (∀ loaded st, Forall (fun x => name x ≠ "") loaded →
       reachable loaded st →
       name (val (current st)) ≠ ""
       ∧ Forall (Forall (fun x => name x ≠ "")) (writes st)).
Proof using nanoid_nonempty.
  split; [| split; [| split]].
  - intros st value.
    assert (name (val (current (handleNameChange nanoid value st)))
            = or_else value "Untitled") as Hname.
    { unfold handleNameChange, id_or_nanoid, setCurrent_new, alloc.
      destruct (String.eqb _ _); rewrite render_current; reflexivity. }
    rewrite Hname. split.
    + unfold or_else. destruct (String.eqb_spec value ""); done.
    + intros ->. reflexivity.
  - intros st item. rewrite upsertItem_value. reflexivity.
  - intros raw l k r Hparse Hk.
    destruct (loadSavedItems_lookup JSON_parse raw l k r Hparse Hk)
      as (e & He & _ & Hfields & _).
    exists e. split; [exact He |]. rewrite Hfields by done.
    destruct (ownProps e !! "name"); reflexivity.
  - intros loaded st Hl Hreach.
    assert (Sound (fun x => name x ≠ "") (fun x => name x ≠ "") st)
      as [Hc _ Hw].
    { apply (reachable_sound nanoid Number nanoid_nonempty) with (loaded := loaded);
        try done.
      intros d f v Hd. destruct f; exact Hd. }
    split; assumption.
Qed.

(** C10. Deleting an identifier other than the Draft's leaves the Draft
    as it is, with its identifier, its pending timer and the debounced
    value; the saved Collection loses exactly the Items with the deleted
    identifier, in state and ref alike, and is written as such. *)
Theorem handleDelete_other (loaded : list Item) (st : App) (i : string) :
  reachable loaded st → id (val (current st)) ≠ i →
  let st' := handleDelete i st in
  current st' = current st
  ∧ debounceTimer st' = debounceTimer st
  ∧ debouncedCurrent st' = debouncedCurrent st
  ∧ nextId st' = nextId st
  ∧ map val (savedItems st')
    = filter (fun x => id x ≠ i) (map val (savedItems st))
  ∧ savedItemsRef st' = savedItems st'
  ∧ writes st' = writes st ++ [map val (savedItems st')]
  ∧ (∀ x, x ∈ map val (savedItems st')
          ↔ x ∈ map val (savedItems st) ∧ id x ≠ i).
Proof.
  intros Hreach Hne. cbv zeta.
  pose proof (reachable_scheduled nanoid Number loaded st Hreach) as H.
  assert (handleDelete i st
          = persistItems
              (filter (fun item => id (val item) ≠ i) (savedItems st)) st)
    as ->.
  { unfold handleDelete.
    destruct (String.eqb_spec (id (val (current st))) i); [done |].
    apply render_seen. cbn. apply H. }
  cbn. rewrite map_val_filter.
  do 7 (split; [reflexivity |]).
  intros x. rewrite list_elem_of_filter. split; intros [? ?]; done.
Qed.

End Session.

(** C2, as stated, fails: the record without any property is loaded as the
    blank item, and the next autosave writes it back with the rest of the
    Collection. *)
Lemma blank_item_written :
  loadSavedItems empty_record_parse (Some "x") = [itemObj createEmptyItem]
  ∧ isBlankNewItem createEmptyItem = true
  ∧ writes (run sample_nanoid sample_Number (mount [createEmptyItem])
              [NameChange "Mugs"; Elapse 15000])
    = [[createEmptyItem; with_id "i0" named_draft]].
Proof. vm_compute. repeat split. Qed.

Lemma blank_draft_not_written_witness :
  let st := run sample_nanoid sample_Number (mount [saved_mugs]) [Delete "zz"; New] in
  isBlankNewItem (val (current st)) = true
  ∧ writes (elapse sample_nanoid 15000 st) = writes st.
Proof.
  cbv zeta. split; [reflexivity |].
  apply (blank_draft_not_written sample_nanoid sample_Number
           sample_nanoid_nonempty [saved_mugs]).
  - apply (reach_step _ _ _ _ New), (reach_step _ _ _ _ (Delete "zz")),
      reach_mount.
  - reflexivity.
Defined.

(** C9, as stated, fails: a stored record whose name is empty is loaded with
    its empty name, and an item with an empty name is upserted as it is. *)
Lemma empty_name_stored :
  (loadSavedItems empty_name_parse (Some "x") !! 0) ≫= (.!! "name")
  = Some (JStr "")
  ∧ map name (map val (savedItemsRef
       (snd (upsertItem sample_nanoid (with_name "" saved_mugs) (mount [])))))
    = [""].
Proof. vm_compute. repeat split. Qed.

Lemma names_in_stored_data_witness :
  let st := run sample_nanoid sample_Number (mount [saved_mugs])
              [NameChange ""; Elapse 15000] in
  Forall (fun x => name x ≠ "") [saved_mugs]
  ∧ name (val (current st)) ≠ "".
Proof.
  cbv zeta.
  assert (Forall (fun x => name x ≠ "") [saved_mugs]) as Hl
    by (apply Forall_singleton; discriminate).
  split; [exact Hl |].
  destruct (names_in_stored_data sample_nanoid sample_Number empty_name_parse
              sample_nanoid_nonempty) as (_ & _ & _ & Hsession).
  apply (Hsession [saved_mugs]).
  - exact Hl.
  - apply (reach_step _ _ _ _ (Elapse 15000)),
      (reach_step _ _ _ _ (NameChange "")), reach_mount.
Defined.

Lemma handleDelete_other_witness :
  let st := run sample_nanoid sample_Number (mount [saved_mugs]) [NameChange "Cups"] in
  id (val (current st)) ≠ "m1"
  ∧ current (handleDelete "m1" st) = current st
  ∧ map val (savedItems (handleDelete "m1" st)) = [].
Proof.
  cbv zeta.
  assert (id (val (current (run sample_nanoid sample_Number (mount [saved_mugs])
                             [NameChange "Cups"]))) ≠ "m1") as Hne
    by discriminate.
  split; [exact Hne |].
  pose proof (handleDelete_other sample_nanoid sample_Number [saved_mugs] _ "m1"
                (reach_step _ _ _ _ (NameChange "Cups") (reach_mount _ _ _)) Hne)
    as (Hcur & _ & _ & _ & Hsaved & _).
  split; [exact Hcur | exact Hsaved].
Defined.

Lemma autosave_coalesces_witness :
  let st := mount [] in
  let e0 := NumberChange Fquantity "3" in
  let b := [(100%N, NumberChange FpricePerItem "10"); (14999%N, NameChange "Mugs")] in
  let st1 := run_burst sample_nanoid sample_Number
               (step sample_nanoid sample_Number st e0) b in
  writes st1 = []
  ∧ writes (elapse sample_nanoid 15000 st1)
    = [[mkItem "i0" "Mugs" (of_pos 3) (of_pos 10) zero zero n0_2]].
Proof.
  cbv zeta.
  pose proof (autosave_coalesces sample_nanoid sample_Number [] (mount [])
                (NumberChange Fquantity "3")
                [(100%N, NumberChange FpricePerItem "10");
                 (14999%N, NameChange "Mugs")] 15000%N
                (reach_mount _ _ _) eq_refl eq_refl eq_refl)
    as (Hburst & _ & Hfire & _).
  { unfold quietWindow. lia. }
  split; [exact Hburst |].
  etransitivity; [exact Hfire |]. vm_compute. reflexivity.
Defined.

Lemma loadSavedItems_recovers_witness :
  empty_record_parse "x" = Some (JArr [JObj ∅])
  ∧ length (loadSavedItems empty_record_parse (Some "x")) = 1.
Proof.
  split; [reflexivity |].
  destruct (loadSavedItems_recovers empty_record_parse)
    as (_ & _ & _ & _ & _ & Hlength).
  apply (Hlength "x" [JObj ∅]).
  - reflexivity.
  - discriminate.
  - apply Forall_singleton. discriminate.
Defined.

(** * Further properties *)

(** ** Pricing calculator: signs *)

Lemma binary_round_aux_not_negative (m e : Z) (l : location) :
  negative (binary_round_aux prec emax false m e l) = false.
Proof.
  unfold binary_round_aux.
  destruct (shr_fexp prec emax m e l) as [mrs' e'].
  destruct (shr_fexp prec emax _ e' loc_Exact) as [mrs'' e''].
  destruct (shr_m mrs''); [reflexivity | | reflexivity].
  destruct (Z.leb e'' _); reflexivity.
Qed.

Lemma mul_not_negative (x y : number) :
  negative x = false → negative y = false → negative (mul x y) = false.
Proof.
  destruct x as [[] | [] | | [] mx ex], y as [[] | [] | | [] my ey];
    try discriminate; try reflexivity.
  intros _ _. apply binary_round_aux_not_negative.
Qed.

Lemma add_not_negative (x y : number) :
  negative x = false → negative y = false → negative (add x y) = false.
Proof.
  destruct x as [[] | [] | | [] mx ex], y as [[] | [] | | [] my ey];
    try discriminate; try reflexivity.
  intros _ _. unfold add, SFadd. cbn [cond_Zopp].
  generalize (fst (shl_align mx ex (Z.min ex ey))) as a.
  generalize (fst (shl_align my ey (Z.min ex ey))) as b. intros b a.
  change (Z.add (Z.pos a) (Z.pos b)) with (Z.pos (a + b)).
  cbn [binary_normalize]. unfold binary_round.
  destruct (shl_align (a + b) _ _) as [mz ez].
  apply binary_round_aux_not_negative.
Qed.

Lemma Math_max_zero_not_negative (x : number) :
  negative (Math_max zero x) = false.
Proof. destruct x as [[] | [] | | [] m e]; reflexivity. Qed.

Lemma Math_max_zero_nonpositive (x : number) :
  SFleb x zero = true → Math_max zero x = zero.
Proof. destruct x as [[] | [] | | [] m e]; cbn; congruence. Qed.

(** X1. Whatever the four cost fields are, the subtotal is never below
    zero, and with a profit rate that is not negative neither are the
    profit and the total. *)
Theorem totals_never_negative (item : Item) :
  negative (subtotal (calculateTotals item)) = false
  ∧ (negative (profitPercent item) = false →
       negative (profitValue (calculateTotals item)) = false
       ∧ negative (total (calculateTotals item)) = false).
Proof.
  assert (negative (subtotal (calculateTotals item)) = false) as Hsub.
  { cbn. repeat apply add_not_negative; try apply Math_max_zero_not_negative.
    apply mul_not_negative; apply Math_max_zero_not_negative. }
  split; [exact Hsub |]. intros Hrate.
  assert (negative (profitValue (calculateTotals item)) = false) as Hprofit
    by (apply mul_not_negative; assumption).
  split; [exact Hprofit |].
  apply add_not_negative; assumption.
Qed.

Lemma totals_never_negative_witness :
  negative (profitPercent nan_quantity_item) = false
  ∧ negative (total (calculateTotals nan_quantity_item)) = false.
Proof.
  split; [reflexivity |].
  destruct (totals_never_negative nan_quantity_item) as [_ Hrate].
  apply Hrate. reflexivity.
Defined.

(** X2. An item whose four cost fields are all at most zero (below zero,
    -Infinity, 0 or -0; a NaN field is not at most zero) costs nothing: its
    subtotal is 0, and with one of the three profit rates so are the profit
    and the total. *)
Theorem totals_of_nonpositive_fields (item : Item) :
  (∀ f, SFleb (get_field f item) zero = true) →
  subtotal (calculateTotals item) = zero
  ∧ (includes PROFIT_OPTIONS (profitPercent item) = true →
       calculateTotals item
       = {| subtotal := zero; profitValue := zero; total := zero |}).
Proof.
  intros Hle.
  assert (subtotal (calculateTotals item) = zero) as Hsub.
  { pose proof (Math_max_zero_nonpositive _ (Hle Fquantity)) as Hq.
    pose proof (Math_max_zero_nonpositive _ (Hle FpricePerItem)) as Hp.
    pose proof (Math_max_zero_nonpositive _ (Hle FsetupFee)) as Hs.
    pose proof (Math_max_zero_nonpositive _ (Hle Fshipping)) as Hh.
    cbn [get_field] in Hq, Hp, Hs, Hh.
    unfold calculateTotals. cbn [subtotal]. rewrite Hq, Hp, Hs, Hh.
    reflexivity. }
  split; [exact Hsub |]. intros Hrate.
  unfold calculateTotals in *. cbn [subtotal] in Hsub. rewrite Hsub.
  apply includes_PROFIT_OPTIONS in Hrate as [-> | [-> | ->]]; reflexivity.
Qed.

Lemma totals_of_nonpositive_fields_witness :
  (∀ f, SFleb (get_field f credit_item) zero = true)
  ∧ negative (quantity credit_item) = true
  ∧ calculateTotals credit_item
    = {| subtotal := zero; profitValue := zero; total := zero |}.
Proof.
  assert (∀ f, SFleb (get_field f credit_item) zero = true) as Hle
    by (intros []; reflexivity).
  split; [exact Hle |]. split; [reflexivity |].
  destruct (totals_of_nonpositive_fields credit_item Hle) as [_ Hrate].
  apply Hrate. reflexivity.
Defined.

(** ** Upsert and delete on the Collection *)

Lemma existsb_id_elem (l : list Item) (id_ : string) :
  existsb (fun saved => String.eqb (id saved) id_) l = true ↔ id_ ∈ map id l.
Proof.
  rewrite existsb_exists. split.
  - intros (s & Hs & Heq). apply String.eqb_eq in Heq as <-.
    apply list_elem_of_fmap. exists s. split; [done | apply list_elem_of_In, Hs].
  - intros Hin. apply list_elem_of_fmap in Hin as (s & -> & Hs).
    exists s. split; [apply list_elem_of_In, Hs | apply String.eqb_refl].
Qed.

Lemma upserted_ids (C : list Item) (next : Item) :
  map id (upserted C (id next) next)
  = if existsb (fun saved => String.eqb (id saved) (id next)) C
    then map id C else map id C ++ [id next].
Proof.
  unfold upserted. destruct (existsb _ C).
  - rewrite map_map. apply map_ext. intros a.
    destruct (String.eqb_spec (id a) (id next)); congruence.
  - rewrite map_app. reflexivity.
Qed.

(** A member of a Collection without duplicate identifiers is upserted onto
    itself. *)
Lemma upserted_member (C : list Item) (s : Item) :
  NoDup (map id C) → s ∈ C → upserted C (id s) s = C.
Proof.
  intros Hnd Hin. unfold upserted.
  rewrite (existsb_id_true C (id s) s Hin eq_refl).
  apply list_elem_of_lookup in Hin as [k Hk].
  rewrite (replace_by_id_insert C (id s) s s k Hnd Hk eq_refl).
  apply list_insert_id, Hk.
Qed.

Lemma filter_upserted (C : list Item) (next : Item) :
  filter (fun x => id x ≠ id next) (upserted C (id next) next)
  = filter (fun x => id x ≠ id next) C.
Proof.
  unfold upserted. destruct (existsb _ C).
  - induction C as [| a C IH]; [reflexivity |]. cbn [map].
    rewrite !filter_cons.
    destruct (String.eqb_spec (id a) (id next)) as [Heq | Hne].
    + destruct (decide (id next ≠ id next)); [done |].
      destruct (decide (id a ≠ id next)); [done | exact IH].
    + destruct (decide (id a ≠ id next)); [| done]. f_equal. exact IH.
  - rewrite filter_app, filter_cons, filter_nil.
    destruct (decide (id next ≠ id next)); [done | apply app_nil_r].
Qed.

Lemma find_replaced (l : list Obj) (id_ : string) (next : Obj) :
  id (val next) = id_ →
  existsb (fun saved => String.eqb (id (val saved)) id_) l = true →
  find (fun saved => String.eqb (id (val saved)) id_)
    (map (fun saved => if String.eqb (id (val saved)) id_ then next else saved) l)
  = Some next.
Proof.
  intros Hid. induction l as [| a l IH]; [discriminate |]. cbn.
  destruct (String.eqb (id (val a)) id_) eqn:Ha.
  - intros _. rewrite Hid, String.eqb_refl. reflexivity.
  - rewrite Ha. cbn. exact IH.
Qed.

Lemma find_appended (l : list Obj) (id_ : string) (next : Obj) :
  id (val next) = id_ →
  existsb (fun saved => String.eqb (id (val saved)) id_) l = false →
  find (fun saved => String.eqb (id (val saved)) id_) (l ++ [next]) = Some next.
Proof.
  intros Hid. induction l as [| a l IH].
  - intros _. cbn. rewrite Hid, String.eqb_refl. reflexivity.
  - cbn. destruct (String.eqb (id (val a)) id_); [discriminate |]. exact IH.
Qed.

Lemma upserted_identifiers (C : list Item) (next : Item) :
  let ids := map id C in
  let ids' := map id (upserted C (id next) next) in
  (id next ∈ ids → ids' = ids)
  ∧ (id next ∉ ids → ids' = ids ++ [id next])
  ∧ (NoDup ids → NoDup ids')
  ∧ id next ∈ ids'.
Proof.
  cbv zeta. rewrite upserted_ids.
  destruct (existsb _ C) eqn:Hex.
  - apply existsb_id_elem in Hex. split; [done |]. split; [done |]. done.
  - assert (id next ∉ map id C) as Hnot.
    { intros Hin. apply existsb_id_elem in Hin. congruence. }
    split; [done |]. split; [done |]. split.
    + intros Hnd. apply NoDup_app. split; [exact Hnd |]. split.
      * intros x Hx Hx'. apply list_elem_of_singleton in Hx' as ->. done.
      * apply NoDup_singleton.
    + apply elem_of_app. right. apply list_elem_of_singleton. reflexivity.
Qed.

Section Collection.

Variable nanoid : nat → string.
Variable Number : string → number.

Abbreviation upsertItem := (upsertItem nanoid).
Abbreviation completed_id := (completed_id nanoid).

(** X3. [upsertItem] keeps the identifiers of the Collection in their
    order: when the identifier of the completed item is among them the list
    of identifiers is unchanged, and otherwise it grows by that identifier at
    the end.  Hence a Collection without duplicate identifiers stays one,
    and the upserted identifier is always present afterwards. *)
Theorem upsertItem_identifiers (st : App) (item : Item) :
  let ids := map id (map val (savedItemsRef st)) in
  let id_ := completed_id st (id item) in
  let ids' := map id (map val (savedItemsRef (snd (upsertItem item st)))) in
  (id_ ∈ ids → ids' = ids)
  ∧ (id_ ∉ ids → ids' = ids ++ [id_])
  ∧ (NoDup ids → NoDup ids')
  ∧ id_ ∈ ids'.
Proof.
  cbv zeta. rewrite upsertItem_saved.
  exact (upserted_identifiers (map val (savedItemsRef st))
           (with_id (completed_id st (id item)) item)).
Qed.

(** X4. An item that was just upserted is the one found under its
    identifier: [find], as [handleLoad] calls it, returns the very object
    that [upsertItem] returned, and in a session [handleLoad] then makes it
    the Draft. *)
Theorem upsertItem_then_find (st : App) (item : Item) :
  let r := upsertItem item st in
  find (fun saved => String.eqb (id (val saved)) (id (val (fst r))))
    (savedItems (snd r)) = Some (fst r)
  ∧ (∀ loaded, reachable nanoid Number loaded st →
       current (handleLoad (id (val (fst r))) (snd r)) = fst r).
Proof.
  cbv zeta.
  assert (find (fun saved => String.eqb (id (val saved))
                               (id (val (fst (upsertItem item st)))))
            (savedItems (snd (upsertItem item st)))
          = Some (fst (upsertItem item st))
          ∧ addr (fst (upsertItem item st)) = nextAddr st
          ∧ current (snd (upsertItem item st)) = current st)
    as (Hfind & Haddr & Hcur).
  { unfold upsertItem, id_or_nanoid, alloc, render,
      useDebounceValue_render.
    destruct (String.eqb (id item) ""); cbn;
      destruct (existsb _ (savedItemsRef st)) eqn:Hex; cbn;
      destruct (Nat.eqb _ _); cbn;
      (split; [first [apply find_replaced | apply find_appended]; done | done]). }
  split; [exact Hfind |].
  intros loaded Hreach.
  pose proof (reachable_scheduled nanoid Number loaded st Hreach)
    as [_ _ Hp _ _ Hc _].
  assert (previousValueRef (snd (upsertItem item st)) = current st) as Hprev.
  { rewrite upsertItem_scheduled_eq by exact Hp. cbn.
    unfold id_or_nanoid. destruct (String.eqb _ _); exact Hp. }
  unfold handleLoad. rewrite Hfind. unfold setCurrent. rewrite Hcur, Haddr.
  destruct (Nat.eqb_spec (nextAddr st) (addr (current st))); [lia |].
  rewrite render_changed; [reflexivity |].
  rewrite Hprev, Haddr. lia.
Qed.

(** X5. Deleting an item right after it was upserted undoes the upsert: the
    Collection is the one that deleting the identifier from the original
    Collection gives. *)
Theorem upsertItem_then_delete (st : App) (item : Item) :
  let r := upsertItem item st in
  map val (savedItems (handleDelete (id (val (fst r))) (snd r)))
  = filter (fun x => id x ≠ id (val (fst r))) (map val (savedItemsRef st)).
Proof.
  cbv zeta.
  pose proof (upsertItem_frame nanoid item st) as (Hsync & _).
  cbv zeta in Hsync.
  assert (∀ i st0, map val (savedItems (handleDelete i st0))
                   = filter (fun x => id x ≠ i) (map val (savedItems st0)))
    as Hdelete.
  { intros i st0. unfold handleDelete, setCurrent_new, alloc, render,
      useDebounceValue_render.
    destruct (String.eqb _ i); cbn; destruct (Nat.eqb _ _); cbn;
      apply map_val_filter. }
  rewrite Hdelete, Hsync, upsertItem_saved, upsertItem_value.
  set (next := with_id (completed_id st (id item)) item).
  change (completed_id st (id item)) with (id next).
  apply filter_upserted.
Qed.

End Collection.

(** X6. [handleDelete] removes every Item with the given identifier and no
    other, keeps state and ref equal, and writes the result; deleting the
    same identifier again changes nothing in the Collection; and when the
    identifier is the Draft's, the Draft becomes the empty, unanchored
    item. *)
Theorem handleDelete_removes (st : App) (i : string) :
  let st' := handleDelete i st in
  map val (savedItems st') = filter (fun x => id x ≠ i) (map val (savedItems st))
  ∧ savedItemsRef st' = savedItems st'
  ∧ writes st' = writes st ++ [map val (savedItems st')]
  ∧ (i ∉ map id (map val (savedItems st')))
  ∧ map val (savedItems (handleDelete i st')) = map val (savedItems st')
  ∧ (id (val (current st)) = i → val (current st') = createEmptyItem)
  ∧ (id (val (current st)) ≠ i → current st' = current st).
Proof.
  cbv zeta.
  assert (∀ j st0,
            map val (savedItems (handleDelete j st0))
            = filter (fun x => id x ≠ j) (map val (savedItems st0))
            ∧ savedItemsRef (handleDelete j st0) = savedItems (handleDelete j st0)
            ∧ writes (handleDelete j st0)
              = writes st0 ++ [map val (savedItems (handleDelete j st0))]
            ∧ (id (val (current st0)) = j →
                 val (current (handleDelete j st0)) = createEmptyItem)
            ∧ (id (val (current st0)) ≠ j →
                 current (handleDelete j st0) = current st0)) as Hdelete.
  { intros j st0. unfold handleDelete, setCurrent_new, alloc, render,
      useDebounceValue_render.
    destruct (String.eqb_spec (id (val (current st0))) j); cbn;
      destruct (Nat.eqb _ _); cbn; rewrite map_val_filter; done. }
  destruct (Hdelete i st) as (Hsaved & Hsync & Hwrites & Hreset & Hkeep).
  split; [exact Hsaved |]. split; [exact Hsync |]. split; [exact Hwrites |].
  split; [| split; [| split; assumption]].
  - rewrite Hsaved. intros Hin.
    apply list_elem_of_fmap in Hin as (x & Hi & Hx).
    apply list_elem_of_filter in Hx as [Hne _]. congruence.
  - destruct (Hdelete i (handleDelete i st)) as (-> & _).
    rewrite Hsaved. apply list_filter_filter_l. done.
Qed.

(** ** The session as a whole *)

Lemma map_val_mount (loaded : list Item) :
  map val (imap (fun k v => mkObj (S k) v) loaded) = loaded.
Proof.
  change (map val ?l) with (val <$> l). rewrite fmap_imap.
  rewrite (imap_ext _ (const (fun x => x))) by done.
  rewrite imap_const. apply list_fmap_id.
Qed.

Lemma handleDelete_collection (i : string) (st : App) :
  map val (savedItems (handleDelete i st))
  = filter (fun x => id x ≠ i) (map val (savedItems st))
  ∧ savedItemsRef (handleDelete i st) = savedItems (handleDelete i st)
  ∧ writes (handleDelete i st)
    = writes st ++ [map val (savedItems (handleDelete i st))].
Proof.
  unfold handleDelete, setCurrent_new, alloc, render, useDebounceValue_render.
  destruct (String.eqb _ i); cbn; destruct (Nat.eqb _ _); cbn;
    rewrite map_val_filter; done.
Qed.

Lemma setCurrent_new_frame (v : Item) (st : App) :
  debouncedCurrent (setCurrent_new v st) = debouncedCurrent st
  ∧ nextAddr (setCurrent_new v st) = S (nextAddr st)
  ∧ current (setCurrent_new v st) = mkObj (nextAddr st) v
  ∧ nextId (setCurrent_new v st) = nextId st.
Proof.
  unfold setCurrent_new, alloc, render, useDebounceValue_render. cbn.
  destruct (Nat.eqb _ _); done.
Qed.

Section Sessions.

Variable nanoid : nat → string.
Variable Number : string → number.

Abbreviation step := (step nanoid Number).
Abbreviation elapse := (elapse nanoid).
Abbreviation reachable := (reachable nanoid Number).
Abbreviation completed_id := (completed_id nanoid).

(** The effect of the passing of time on a scheduled state: nothing, or one
    upsert of the Draft, which is then not blank. *)
Lemma elapse_collection (ms : N) (st : App) :
  Scheduled st →
  (savedItemsRef (elapse ms st) = savedItemsRef st
   ∧ writes (elapse ms st) = writes st)
  ∨ (isEmpty (val (current st)) = false
     ∧ (∃ r, debounceTimer st = Some (r, current st) ∧ (r ≤ ms)%N)
     ∧ let next := with_id (completed_id st (id (val (current st))))
                     (val (current st)) in
       map val (savedItemsRef (elapse ms st))
       = upserted (map val (savedItemsRef st)) (id next) next
       ∧ writes (elapse ms st)
         = writes st ++ [map val (savedItemsRef (elapse ms st))]).
Proof.
  intros H. destruct (debounceTimer st) as [[r v] |] eqn:Htimer.
  - destruct (N.leb_spec r ms) as [Hle | Hlt].
    + rewrite (elapse_fire nanoid ms r v) by assumption.
      assert (v = current st) as -> by (destruct H as [_ _ _ _ Ht _ _];
                                        apply (Ht r v Htimer)).
      destruct (Nat.eqb _ _); [left; done |].
      destruct (isEmpty _) eqn:Hempty; [left; done |].
      right. split; [reflexivity |]. split; [eauto |]. cbv zeta.
      pose proof (upsertItem_frame nanoid (val (current st))
                    (set_debouncedCurrent (current st)
                       (set_debounceTimer None st))) as (_ & Hw & _).
      cbv zeta in Hw. rewrite Hw, upsertItem_saved. done.
    + rewrite (elapse_wait nanoid ms r v) by assumption. left. done.
  - rewrite elapse_idle by assumption. left. done.
Qed.

(** Every event leaves the Collection and the writes as they are, or
    writes the new Collection, which is the old one without an identifier
    or with one item upserted. *)
Lemma step_collection (st : App) (e : Event) :
  Scheduled st →
  let C := map val (savedItemsRef st) in
  let C' := map val (savedItemsRef (step st e)) in
  (C' = C ∧ writes (step st e) = writes st)
  ∨ (writes (step st e) = writes st ++ [C']
     ∧ ((∃ i, C' = filter (fun x => id x ≠ i) C)
        ∨ (∃ next, C' = upserted C (id next) next))).
Proof.
  intros H. cbv zeta.
  destruct e as [value | field value | value | i | i | | ms].
  - destruct (restarted_edit nanoid (with_name (or_else value "Untitled")) st H)
      as (_ & Hw & Hr & _).
    left. split; [exact (f_equal (map val) Hr) | exact Hw].
  - destruct (restarted_edit nanoid
                (with_field field
                   (if truthy (Number value) then Number value else zero)) st H)
      as (_ & Hw & Hr & _).
    left. split; [exact (f_equal (map val) Hr) | exact Hw].
  - destruct (restarted_edit nanoid
                (with_profitPercent
                   (if includes PROFIT_OPTIONS (Number value)
                    then Number value else n0_2)) st H)
      as (_ & Hw & Hr & _).
    left. split; [exact (f_equal (map val) Hr) | exact Hw].
  - left. cbn. unfold handleLoad, setCurrent.
    destruct (find _ _) as [item |]; [| done].
    destruct (Nat.eqb_spec (addr item) (addr (current st))); [done |].
    rewrite render_changed; [done |].
    destruct H as [_ _ Hp _ _ _ _]. rewrite Hp. congruence.
  - right. cbn. destruct (handleDelete_collection i st) as (Hsaved & Hsync & Hw).
    rewrite Hsync. split; [exact Hw |]. left. exists i.
    rewrite Hsaved. destruct H as [_ _ _ Hs _ _ _]. rewrite Hs. reflexivity.
  - left. destruct (restarted_setCurrent_new createEmptyItem st st H)
      as (_ & Hw & Hr & _); try done.
    split; [exact (f_equal (map val) Hr) | exact Hw].
  - cbn. destruct (elapse_collection ms st H) as [[Hr Hw] | (_ & _ & Hc & Hw)].
    + left. rewrite Hr. done.
    + right. split; [exact Hw |]. right. eauto.
Qed.

(** X7. A session that loads a Collection without duplicate identifiers
    never holds one with duplicates: no sequence of edits, loads, deletions,
    resets and autosaves creates two Items with the same identifier. *)
Theorem collection_unique_by_id (loaded : list Item) (st : App) :
  NoDup (map id loaded) → reachable loaded st →
  NoDup (map id (map val (savedItemsRef st))).
Proof.
  intros Hnd. induction 1 as [| st e Hreach IH].
  - unfold mount, autosaveEffect. cbn. rewrite map_val_mount. exact Hnd.
  - pose proof (reachable_scheduled nanoid Number loaded st Hreach) as H.
    destruct (step_collection st e H)
      as [[-> _] | [_ [[i ->] | [next ->]]]]; [exact IH | |].
    + eapply sublist_NoDup; [exact IH |].
      apply fmap_sublist, sublist_filter.
    + apply upserted_identifiers, IH.
Qed.

(** X8. The durable medium and the memory agree: in every state of a
    session the rendered Collection and the ref are the same list, and its
    items are those of the last write, or the loaded ones when nothing was
    written yet. *)
Theorem storage_in_sync (loaded : list Item) (st : App) :
  reachable loaded st →
  savedItems st = savedItemsRef st
  ∧ map val (savedItemsRef st) = default loaded (last (writes st)).
Proof.
  intros Hreach. split; [apply (reachable_scheduled nanoid Number loaded), Hreach |].
  induction Hreach as [| st e Hreach IH].
  - unfold mount, autosaveEffect. cbn. apply map_val_mount.
  - pose proof (reachable_scheduled nanoid Number loaded st Hreach) as H.
    destruct (step_collection st e H) as [[-> ->] | [-> _]]; [exact IH |].
    rewrite last_snoc. reflexivity.
Qed.

Lemma elapse_fire_idle (ms r : N) (v : Obj) (st : App) :
  Scheduled st → debounceTimer st = Some (r, v) → (r ≤ ms)%N →
  debounceTimer (elapse ms st) = None.
Proof.
  intros H Htimer Hle. rewrite (elapse_fire nanoid ms r v) by assumption.
  destruct (Nat.eqb _ _); [reflexivity |].
  destruct (isEmpty _); [reflexivity |].
  rewrite upsertItem_scheduled_eq by (cbn; apply H).
  unfold id_or_nanoid. destruct (String.eqb _ _); reflexivity.
Qed.

(** X9. Time composes: letting [a] and then [b] milliseconds pass without
    any event leads to the state that [a + b] milliseconds lead to, and once
    a whole quiet window has passed the scheduler is idle. *)
Theorem elapse_additive (loaded : list Item) (st : App) (a b : N) :
  reachable loaded st →
  elapse b (elapse a st) = elapse (a + b) st
  ∧ ((quietWindow ≤ a)%N → debounceTimer (elapse a st) = None).
Proof.
  intros Hreach.
  pose proof (reachable_scheduled nanoid Number loaded st Hreach) as H.
  pose proof (scheduled_elapse nanoid a st H) as Ha.
  destruct (debounceTimer st) as [[r v] |] eqn:Htimer.
  - assert ((0 < r ≤ quietWindow)%N) as Hr
      by (destruct H as [_ _ _ _ Ht _ _]; apply (Ht r v Htimer)).
    split.
    + destruct (N.leb_spec r a) as [Hle | Hlt].
      * rewrite (elapse_idle nanoid b)
          by (try exact Ha; eapply elapse_fire_idle; eassumption).
        rewrite (elapse_fire nanoid a r v), (elapse_fire nanoid (a + b) r v)
          by (try assumption; lia).
        reflexivity.
      * assert (elapse a st = set_debounceTimer (Some ((r - a)%N, v)) st) as Hwait
          by (apply elapse_wait; assumption).
        destruct (N.leb_spec r (a + b)) as [Hle | Hlt'].
        -- rewrite (elapse_fire nanoid b (r - a) v (elapse a st))
             by (try exact Ha; rewrite ?Hwait; cbn; try reflexivity; lia).
           rewrite (elapse_fire nanoid (a + b) r v) by assumption.
           rewrite Hwait. reflexivity.
        -- rewrite (elapse_wait nanoid b (r - a) v (elapse a st))
             by (try exact Ha; rewrite ?Hwait; cbn; try reflexivity; lia).
           rewrite (elapse_wait nanoid (a + b) r v) by assumption.
           rewrite Hwait. cbn. rewrite N.sub_add_distr. reflexivity.
    + intros Hwindow. eapply elapse_fire_idle; [exact H | exact Htimer | lia].
  - rewrite (elapse_idle nanoid a) by assumption.
    rewrite !(elapse_idle nanoid) by assumption. done.
Qed.

End Sessions.

(** ** Edits, resets and reloads in a session *)

Section Pending.

Variable nanoid : nat → string.
Variable Number : string → number.
Hypothesis nanoid_nonempty : ∀ n, nanoid n ≠ "".

Abbreviation step := (step nanoid Number).
Abbreviation elapse := (elapse nanoid).
Abbreviation reachable := (reachable nanoid Number).
Abbreviation completed_id := (completed_id nanoid).

(** The state after an edit that applies [v] to the anchored Draft. *)
Lemma edit_result (v : Item → Item) (st : App) :
  Scheduled st →
  let st1 :=
    let '(id_, s) := id_or_nanoid nanoid (id (val (current st))) st in
    setCurrent_new (v (with_id id_ (val (current st)))) s in
  current st1
  = mkObj (nextAddr st)
      (v (with_id (completed_id st (id (val (current st)))) (val (current st))))
  ∧ nextAddr st1 = S (nextAddr st)
  ∧ restarted st st1 ∧ Scheduled st1.
Proof.
  intros H. cbv zeta.
  pose proof (restarted_edit nanoid v st H) as Hrestarted.
  pose proof (scheduled_edit nanoid v st H) as Hscheduled.
  split; [| split; [| split; assumption]];
    unfold id_or_nanoid, completed_id;
    destruct (String.eqb (id (val (current st))) "");
    match goal with
    | |- context [setCurrent_new ?x ?s] =>
        destruct (setCurrent_new_frame x s) as (_ & Hn & Hc & _);
        first [exact Hn | exact Hc]
    end.
Qed.

Lemma debounced_addr_step (st : App) (e : Event) :
  Scheduled st → addr (debouncedCurrent st) < nextAddr st →
  addr (debouncedCurrent (step st e)) < nextAddr (step st e).
Proof.
  intros H Hd.
  assert (∀ v s, debouncedCurrent s = debouncedCurrent st →
                 nextAddr s = nextAddr st →
                 addr (debouncedCurrent (setCurrent_new v s))
                 < nextAddr (setCurrent_new v s)) as Hnew.
  { intros v s Hs Hn.
    destruct (setCurrent_new_frame v s) as (-> & -> & _). rewrite Hs, Hn. lia. }
  destruct e as [value | field value | value | i | i | | ms]; cbn.
  - destruct (edit_result (with_name (or_else value "Untitled")) st H)
      as (_ & Hn & (_ & _ & _ & Hdeb) & _).
    cbv zeta in Hn, Hdeb. unfold handleNameChange. rewrite Hn, Hdeb. lia.
  - destruct (edit_result
                (with_field field
                   (if truthy (Number value) then Number value else zero)) st H)
      as (_ & Hn & (_ & _ & _ & Hdeb) & _).
    cbv zeta in Hn, Hdeb. unfold handleNumberChange. rewrite Hn, Hdeb. lia.
  - destruct (edit_result
                (with_profitPercent
                   (if includes PROFIT_OPTIONS (Number value)
                    then Number value else n0_2)) st H)
      as (_ & Hn & (_ & _ & _ & Hdeb) & _).
    cbv zeta in Hn, Hdeb. unfold handleProfitChange. rewrite Hn, Hdeb. lia.
  - unfold handleLoad, setCurrent.
    destruct (find _ _) as [item |]; [| exact Hd].
    destruct (Nat.eqb _ _); [exact Hd |].
    unfold render, useDebounceValue_render. cbn.
    destruct (Nat.eqb _ _); exact Hd.
  - unfold handleDelete. destruct (String.eqb _ _).
    + apply Hnew; reflexivity.
    + unfold render, useDebounceValue_render. cbn.
      destruct (Nat.eqb _ _); exact Hd.
  - apply Hnew; reflexivity.
  - destruct (debounceTimer st) as [[r v] |] eqn:Htimer.
    + destruct (N.leb_spec r ms) as [Hle | Hlt].
      * rewrite (elapse_fire nanoid ms r v) by assumption.
        assert (v = current st) as -> by (destruct H as [_ _ _ _ Ht _ _];
                                          apply (Ht r v Htimer)).
        assert (addr (current st) < nextAddr st) as Hc by apply H.
        destruct (Nat.eqb _ _); [exact Hd |].
        destruct (isEmpty _); [exact Hc |].
        rewrite upsertItem_scheduled_eq by (cbn; apply H). cbn.
        unfold id_or_nanoid. destruct (String.eqb _ _); cbn; lia.
      * rewrite (elapse_wait nanoid ms r v) by assumption. exact Hd.
    + rewrite elapse_idle by assumption. exact Hd.
Qed.

Lemma reachable_debounced_addr (loaded : list Item) (st : App) :
  reachable loaded st → addr (debouncedCurrent st) < nextAddr st.
Proof.
  induction 1 as [| st e Hreach IH].
  - unfold mount, autosaveEffect. cbn. lia.
  - apply debounced_addr_step; [| exact IH].
    apply (reachable_scheduled nanoid Number loaded), Hreach.
Qed.

Lemma isEmpty_anchored (item : Item) : id item ≠ "" → isEmpty item = false.
Proof.
  intros Hne. unfold isEmpty.
  destruct (String.eqb_spec (id item) ""); [done | reflexivity].
Qed.

Lemma completed_id_anchored (st : App) (i : string) :
  i ≠ "" → completed_id st i = i.
Proof. intros Hne. unfold completed_id. destruct (String.eqb_spec i ""); done. Qed.

(** A fresh, anchored Draft is written once the window has passed. *)
Lemma elapse_after_change (st : App) (ms : N) :
  Scheduled st → debounceTimer st = Some (quietWindow, current st) →
  addr (current st) ≠ addr (debouncedCurrent st) →
  id (val (current st)) ≠ "" → (quietWindow ≤ ms)%N →
  let d := val (current st) in
  let C' := upserted (map val (savedItemsRef st)) (id d) d in
  writes (elapse ms st) = writes st ++ [C']
  ∧ map val (savedItemsRef (elapse ms st)) = C'.
Proof.
  intros H Htimer Haddr Hid Hms. cbv zeta.
  rewrite (elapse_fire nanoid ms quietWindow (current st)) by assumption.
  destruct (Nat.eqb_spec (addr (current st)) (addr (debouncedCurrent st)));
    [done |].
  rewrite isEmpty_anchored by exact Hid.
  rewrite upsertItem_writes, upsertItem_saved. cbn.
  rewrite !completed_id_anchored by exact Hid.
  rewrite with_id_id. done.
Qed.

(** X10. Every edit reaches the durable medium: when an edit of the name,
    of a numeric field or of the profit rate is followed by a whole quiet
    window without any event, exactly one write is made, of the Collection
    with the edited Draft upserted under its identifier, which is not
    empty. *)
Theorem edit_is_persisted (loaded : list Item) (st : App) (e : Event) (ms : N) :
  reachable loaded st → isEdit e = true → (quietWindow ≤ ms)%N →
  let st1 := step st e in
  let d := val (current st1) in
  let C' := upserted (map val (savedItemsRef st)) (id d) d in
  id d ≠ ""
  ∧ writes (elapse ms st1) = writes st ++ [C']
  ∧ map val (savedItemsRef (elapse ms st1)) = C'
  ∧ d ∈ C'.
Proof using nanoid_nonempty.
  intros Hreach Hedit Hms. cbv zeta.
  pose proof (reachable_scheduled nanoid Number loaded st Hreach) as H.
  pose proof (reachable_debounced_addr loaded st Hreach) as Hdeb.
  pose proof (completed_id_nonempty nanoid nanoid_nonempty st
                (id (val (current st)))) as Hcid.
  assert (∃ v, (∀ x, id (v x) = id x)
               ∧ step st e
                 = let '(id_, s) := id_or_nanoid nanoid (id (val (current st))) st in
                   setCurrent_new (v (with_id id_ (val (current st)))) s)
    as (v & Hv & ->).
  { destruct e as [value | field value | value | | | |]; try discriminate.
    - exists (with_name (or_else value "Untitled")). done.
    - exists (with_field field
                (if truthy (Number value) then Number value else zero)).
      split; [intros x; destruct field; reflexivity | reflexivity].
    - exists (with_profitPercent
                (if includes PROFIT_OPTIONS (Number value)
                 then Number value else n0_2)). done. }
  destruct (edit_result v st H) as (Hcur & _ & (Ht & Hw & Hr & Hd) & H1).
  cbv zeta in Hcur, Ht, Hw, Hr, Hd, H1.
  set (st1 := let '(id_, s) := id_or_nanoid nanoid (id (val (current st))) st in
              setCurrent_new (v (with_id id_ (val (current st)))) s) in *.
  assert (id (val (current st1)) ≠ "") as Hid
    by (rewrite Hcur; cbn; rewrite Hv; exact Hcid).
  split; [exact Hid |].
  destruct (elapse_after_change st1 ms H1 Ht) as [Hwrites Hsaved];
    [rewrite Hcur, Hd; cbn; lia | exact Hid | exact Hms |].
  cbv zeta in Hwrites, Hsaved. rewrite Hwrites, Hsaved, Hw, Hr.
  split; [reflexivity |]. split; [reflexivity |].
  unfold upserted. destruct (existsb _ _) eqn:Hex.
  - apply existsb_exists in Hex as (s & Hs & Heq).
    apply list_elem_of_In, in_map_iff. exists s. rewrite Heq. done.
  - apply elem_of_app. right. apply list_elem_of_singleton. reflexivity.
Qed.




(** X13. Opening a saved Item and waiting changes nothing in the
    Collection: when the Collection has no duplicate identifiers and
    [handleLoad] installs a saved Item with an identifier as the Draft, the
    autosave that follows the quiet window writes at most once, and what it
    writes is the Collection as it was. *)
Theorem load_then_wait (loaded : list Item) (st : App) (i : string)
    (item : Obj) (ms : N) :
  reachable loaded st →
  NoDup (map id (map val (savedItemsRef st))) →
  find (fun saved => String.eqb (id (val saved)) i) (savedItems st) = Some item →
  addr item ≠ addr (current st) → i ≠ "" → (quietWindow ≤ ms)%N →
  let st1 := handleLoad i st in
  let C := map val (savedItemsRef st) in
  current st1 = item
  ∧ map val (savedItemsRef (elapse ms st1)) = C
  ∧ (writes (elapse ms st1) = writes st
     ∨ writes (elapse ms st1) = writes st ++ [C]).
Proof.
  intros Hreach Hnd Hfind Haddr Hi Hms. cbv zeta.
  pose proof (reachable_scheduled nanoid Number loaded st Hreach) as H.
  pose proof (scheduled_step nanoid Number st (Load i) H) as H1.
  change (step st (Load i)) with (handleLoad i st) in H1.
  assert (handleLoad i st
          = set_previousValueRef item
              (set_debounceTimer (Some (quietWindow, item))
                 (set_current item st))) as Hload.
  { unfold handleLoad, setCurrent. rewrite Hfind.
    destruct (Nat.eqb_spec (addr item) (addr (current st))); [done |].
    apply render_changed. destruct H as [_ _ Hp _ _ _ _]. rewrite Hp. congruence. }
  assert (val item ∈ map val (savedItemsRef st) ∧ id (val item) = i)
    as [Hin Hid].
  { apply find_some in Hfind as [Hin Heq]. apply String.eqb_eq in Heq.
    split; [| exact Heq]. destruct H as [_ _ _ <- _ _ _].
    apply list_elem_of_fmap. exists item. split; [done | apply list_elem_of_In, Hin]. }
  split; [rewrite Hload; reflexivity |].
  destruct (elapse_collection nanoid ms (handleLoad i st) H1)
    as [[Hr Hw] | (_ & _ & Hc & Hw)].
  - rewrite Hr, Hw, Hload. cbn. split; [reflexivity | left; reflexivity].
  - cbv zeta in Hc. rewrite Hw, Hc. rewrite Hload. cbn.
    rewrite completed_id_anchored by congruence. rewrite with_id_id.
    rewrite (upserted_member _ _ Hnd Hin).
    split; [reflexivity | right; reflexivity].
Qed.

End Pending.

(** ** Well-formed items *)

Section WellFormed.

Variable nanoid : nat → string.
Variable Number : string → number.
Hypothesis nanoid_nonempty : ∀ n, nanoid n ≠ "".

Variables P Q : Item → Prop.
Hypothesis P_empty : P createEmptyItem.
Hypothesis Q_P : ∀ x, Q x → P x.

Lemma sound_handleLoad (i : string) (st : App) :
  Scheduled st → Sound P Q st → Sound P Q (handleLoad i st).
Proof using Q_P.
  intros H Hsound. unfold handleLoad, setCurrent.
  destruct (find _ _) as [item |] eqn:Hfind; [| exact Hsound].
  destruct (Nat.eqb_spec (addr item) (addr (current st))) as [| Hne];
    [exact Hsound |].
  rewrite render_changed
    by (destruct H as [_ _ Hp _ _ _ _]; rewrite Hp; congruence).
  destruct Hsound as [Hc Hs Hw]. constructor; cbn; try done.
  apply Q_P. apply find_some in Hfind as [Hin _].
  destruct H as [_ _ _ Heq _ _ _]. rewrite Heq in Hin.
  rewrite Forall_forall in Hs. apply Hs, list_elem_of_In, Hin.
Qed.

Lemma sound_handleDelete (i : string) (st : App) :
  Scheduled st → Sound P Q st → Sound P Q (handleDelete i st).
Proof using P_empty.
  intros H Hsound. unfold handleDelete.
  set (filtered := filter (fun item => id (val item) ≠ i) (savedItems st)).
  assert (Forall (fun o => Q (val o)) filtered) as Hf.
  { apply Forall_forall. intros o Ho.
    apply list_elem_of_filter in Ho as [_ Ho].
    destruct H as [_ _ _ Heq _ _ _]. rewrite Heq in Ho.
    destruct Hsound as [_ Hs _]. rewrite Forall_forall in Hs. auto. }
  assert (Sound P Q (persistItems filtered st)) as H1.
  { destruct Hsound as [Hc Hs Hw]. constructor; cbn; try done.
    apply Forall_app. split; [exact Hw |].
    apply Forall_singleton, Forall_fmap, Hf. }
  assert (Scheduled (persistItems filtered st)) as Hsch.
  { apply scheduled_persistItems; [exact H |].
    apply Forall_forall. intros o Ho.
    apply list_elem_of_filter in Ho as [_ Ho].
    destruct H as [_ _ _ _ _ _ Hv]. rewrite Forall_forall in Hv. auto. }
  destruct (String.eqb _ _).
  - eapply sound_setCurrent_new; [exact Hsch | exact H1 | exact P_empty | done | done].
  - rewrite render_seen; [exact H1 | apply H].
Qed.

End WellFormed.

Lemma truthy_not_NaN (n : number) :
  (if truthy n then n else zero) ≠ NaN.
Proof. destruct n; discriminate. Qed.

Lemma wellFormed_with_id (i : string) (d : Item) :
  wellFormed d → wellFormed (with_id i d).
Proof.
  intros [Hp Hf]. split; [exact Hp |].
  intros f. specialize (Hf f). destruct f; exact Hf.
Qed.

Section Rates.

Variable nanoid : nat → string.
Variable Number : string → number.
Hypothesis nanoid_nonempty : ∀ n, nanoid n ≠ "".

Lemma wellFormed_step (st : App) (e : Event) :
  Scheduled st → Sound wellFormed wellFormed st →
  Sound wellFormed wellFormed (step nanoid Number st e).
Proof using nanoid_nonempty.
  intros H Hsound.
  assert (∀ d i, wellFormed d → i ≠ "" → wellFormed (with_id i d)) as Hid
    by (intros d i Hd _; apply wellFormed_with_id, Hd).
  destruct e as [value | field value | value | i | i | | ms]; cbn.
  - apply (sound_edit nanoid nanoid_nonempty wellFormed wellFormed Hid);
      [exact H | exact Hsound |].
    intros d [Hp Hf]. split; [exact Hp |].
    intros f. specialize (Hf f). destruct f; exact Hf.
  - apply (sound_edit nanoid nanoid_nonempty wellFormed wellFormed Hid);
      [exact H | exact Hsound |].
    intros d [Hp Hf]. split; [destruct field; exact Hp |].
    intros f. specialize (Hf f).
    destruct field, f; cbn; first [apply truthy_not_NaN | exact Hf].
  - apply (sound_edit nanoid nanoid_nonempty wellFormed wellFormed Hid);
      [exact H | exact Hsound |].
    intros d [Hp Hf].
    split; [| intros f; specialize (Hf f); destruct f; exact Hf].
    cbn [profitPercent with_profitPercent].
    destruct (includes PROFIT_OPTIONS (Number value)) eqn:Hinc;
      [exact Hinc | reflexivity].
  - apply sound_handleLoad; done.
  - apply sound_handleDelete; try done. split; [reflexivity | intros []; discriminate].
  - eapply sound_setCurrent_new; [exact H | exact Hsound | | done | done].
    split; [reflexivity | intros []; discriminate].
  - apply (sound_elapse nanoid nanoid_nonempty wellFormed wellFormed Hid);
      assumption.
Qed.

(** X14. A session that loads only well-formed Items, whose profit rate is
    0.2, 0.25 or 0.3 and whose numeric fields are not NaN, keeps the Draft
    well-formed and writes only well-formed Items: [handleProfitChange]
    falls back to 0.2 and [handleNumberChange] to 0. *)
Theorem written_items_well_formed (loaded : list Item) (st : App) :
  Forall wellFormed loaded → reachable nanoid Number loaded st →
  wellFormed (val (current st))
  ∧ Forall wellFormed (map val (savedItemsRef st))
  ∧ Forall (Forall wellFormed) (writes st).
Proof using nanoid_nonempty.
  intros Hl Hreach.
  assert (Sound wellFormed wellFormed st) as [Hc Hs Hw].
  { induction Hreach as [| st e Hreach IH].
    - apply sound_mount; [| exact Hl].
      split; [reflexivity | intros []; discriminate].
    - apply wellFormed_step; [| exact IH].
      apply (reachable_scheduled nanoid Number loaded), Hreach. }
  split; [exact Hc |]. split; [apply Forall_fmap, Hs | exact Hw].
Qed.

End Rates.

(** ** Item store: round trip and null elements *)

Lemma itemObj_lookup (i : Item) (k : string) :
  itemObj i !! k
  = if decide (k = "id") then Some (JStr (id i))
    else if decide (k = "name") then Some (JStr (name i))
    else if decide (k = "quantity") then Some (JNum (quantity i))
    else if decide (k = "pricePerItem") then Some (JNum (pricePerItem i))
    else if decide (k = "setupFee") then Some (JNum (setupFee i))
    else if decide (k = "shipping") then Some (JNum (shipping i))
    else if decide (k = "profitPercent") then Some (JNum (profitPercent i))
    else None.
Proof.
  unfold itemObj. rewrite !lookup_insert, lookup_empty.
  repeat (case_decide; subst; try done).
Qed.

Lemma recover_itemObj (i : Item) :
  recover (JObj (itemObj i))
  = Some (itemObj (with_profitPercent
                     (if includes PROFIT_OPTIONS (profitPercent i)
                      then profitPercent i else n0_2) i)).
Proof.
  unfold recover. cbn [get_profitPercent mbind option_bind ownProps].
  assert (itemObj i !! "profitPercent" = Some (JNum (profitPercent i))) as ->
    by (rewrite itemObj_lookup; reflexivity).
  cbn [includes_value default]. f_equal.
  apply map_eq. intros k.
  rewrite lookup_insert, lookup_union, !itemObj_lookup.
  destruct (includes PROFIT_OPTIONS (profitPercent i));
    repeat (case_decide; subst; try done).
Qed.

Section StoreRoundTrip.

Variable JSON_parse : string → option JValue.

(** X15. Stored records that are complete Items are read back as they
    are, up to the validation of the rate: when the payload parses to the
    array of the objects of [items], [loadSavedItems] returns these objects
    in the same order, each with its profit rate if it is 0.2, 0.25 or 0.3
    and with 0.2 otherwise; so Items whose rates are all valid come back
    unchanged. *)
Theorem loadSavedItems_round_trip (raw : string) (items : list Item) :
  raw ≠ "" →
  JSON_parse raw = Some (JArr (map (fun i => JObj (itemObj i)) items)) →
  loadSavedItems JSON_parse (Some raw)
  = map (fun i => itemObj (with_profitPercent
                             (if includes PROFIT_OPTIONS (profitPercent i)
                              then profitPercent i else n0_2) i)) items
  ∧ (Forall (fun i => includes PROFIT_OPTIONS (profitPercent i) = true) items →
       loadSavedItems JSON_parse (Some raw) = map itemObj items).
Proof.
  intros Hraw Hparse.
  assert (loadSavedItems JSON_parse (Some raw)
          = map (fun i => itemObj (with_profitPercent
                                     (if includes PROFIT_OPTIONS (profitPercent i)
                                      then profitPercent i else n0_2) i)) items)
    as Hload.
  { unfold loadSavedItems, loadSavedItems_try.
    destruct (String.eqb_spec raw ""); [done |]. rewrite Hparse. cbn.
    erewrite mapM_Some_2; [reflexivity |].
    clear. induction items as [| i items IH]; constructor; [| exact IH].
    apply recover_itemObj. }
  split; [exact Hload |]. intros Hall. rewrite Hload.
  apply map_ext_in. intros i Hi. rewrite Forall_forall in Hall.
  rewrite (Hall i) by apply list_elem_of_In, Hi.
  destruct i; reflexivity.
Qed.

(** X16. One [null] among the stored records loses them all: when the
    payload parses to an array that contains [null], the exception raised on
    it is caught and [loadSavedItems] returns the empty list, whatever the
    other records are. *)
Theorem loadSavedItems_null_element (raw : string) (l : list JValue) :
  JSON_parse raw = Some (JArr l) → JNull ∈ l →
  loadSavedItems JSON_parse (Some raw) = [].
Proof.
  intros Hparse Hnull. unfold loadSavedItems, loadSavedItems_try.
  destruct (String.eqb raw ""); [reflexivity |]. rewrite Hparse. cbn.
  rewrite mapM_None_2; [reflexivity |].
  apply Exists_exists. exists JNull. split; [exact Hnull | reflexivity].
Qed.

End StoreRoundTrip.

(** ** The manual-save variant *)

Section ManualProps.

Variable nanoid : nat → string.
Variable Number : string → number.
Hypothesis nanoid_nonempty : ∀ n, nanoid n ≠ "".

Abbreviation mstep := (Manual.step nanoid Number).
Abbreviation mrun := (Manual.run nanoid Number).
Abbreviation mreachable := (Manual.reachable nanoid Number).
Abbreviation mupsertItem := (Manual.upsertItem nanoid).
Abbreviation mhandleSave := (Manual.handleSave nanoid).
Abbreviation mhandleAddNew := (Manual.handleAddNew nanoid).

(** [upsertItem] in closed form. *)
Lemma manual_upsertItem_eq (item : Item) (st : Manual.App) :
  let id_ := if String.eqb (id item) "" then nanoid (Manual.nextId st)
             else id item in
  let next := with_id id_ item in
  let C' := upserted (Manual.savedItemsRef st) id_ next in
  mupsertItem item st
  = (next,
     Manual.mkApp (Manual.current st) C' C' (Manual.newItemDraft st)
       (Manual.writes st ++ [C'])
       (if String.eqb (id item) "" then S (Manual.nextId st)
        else Manual.nextId st)).
Proof.
  cbv zeta. unfold Manual.upsertItem. destruct (String.eqb (id item) "");
    reflexivity.
Qed.

Lemma manual_step_quiet (st : Manual.App) (e : Manual.Event) :
  Manual.persists e = false →
  Manual.writes (mstep st e) = Manual.writes st
  ∧ Manual.savedItems (mstep st e) = Manual.savedItems st
  ∧ Manual.savedItemsRef (mstep st e) = Manual.savedItemsRef st
  ∧ Manual.nextId (mstep st e) = Manual.nextId st.
Proof.
  destruct e; try discriminate; intros _; cbn; try done.
  unfold Manual.handleLoad. destruct (find _ _); done.
Qed.

(** X17. In the manual variant nothing is saved behind the user's back:
    whatever sequence of edits of the Draft, edits of the dialog draft,
    loads and dialog events takes place, as long as it holds no deletion, no
    Save and no creation, the Collection, the ref, the writes and the
    identifier generator are left as they were. *)
Theorem manual_edits_write_nothing (st : Manual.App) (es : list Manual.Event) :
  Forall (fun e => Manual.persists e = false) es →
  Manual.writes (mrun st es) = Manual.writes st
  ∧ Manual.savedItems (mrun st es) = Manual.savedItems st
  ∧ Manual.savedItemsRef (mrun st es) = Manual.savedItemsRef st
  ∧ Manual.nextId (mrun st es) = Manual.nextId st.
Proof.
  revert st. induction es as [| e es IH]; intros st Hall; [done |].
  apply Forall_cons in Hall as [He Hes]. cbn.
  destruct (manual_step_quiet st e He) as (Hw & Hs & Hr & Hn).
  destruct (IH (mstep st e) Hes) as (Hw' & Hs' & Hr' & Hn').
  unfold Manual.run in *. rewrite Hw', Hs', Hr', Hn'. done.
Qed.

(** X18. [handleSave] does nothing while the Draft is unanchored.  For an
    anchored Draft it upserts the Draft under its own identifier without
    calling the generator, leaves the Draft as it is, writes the Collection
    once, and saving again right away leaves the Collection unchanged. *)
Theorem manual_save (st : Manual.App) :
  (id (Manual.current st) = "" → mhandleSave st = st)
  ∧ (id (Manual.current st) ≠ "" →
       let st' := mhandleSave st in
       let cur := Manual.current st in
       Manual.current st' = cur
       ∧ Manual.savedItemsRef st'
         = upserted (Manual.savedItemsRef st) (id cur) cur
       ∧ Manual.savedItems st' = Manual.savedItemsRef st'
       ∧ Manual.nextId st' = Manual.nextId st
       ∧ Manual.writes st' = Manual.writes st ++ [Manual.savedItemsRef st']
       ∧ Manual.savedItemsRef (mhandleSave st') = Manual.savedItemsRef st').
Proof.
  assert (∀ s, id (Manual.current s) ≠ "" →
               mhandleSave s
               = Manual.mkApp (Manual.current s)
                   (upserted (Manual.savedItemsRef s) (id (Manual.current s))
                      (Manual.current s))
                   (upserted (Manual.savedItemsRef s) (id (Manual.current s))
                      (Manual.current s))
                   (Manual.newItemDraft s)
                   (Manual.writes s
                    ++ [upserted (Manual.savedItemsRef s)
                          (id (Manual.current s)) (Manual.current s)])
                   (Manual.nextId s)) as Hsave.
  { intros s Hne. unfold Manual.handleSave, Manual.canSave.
    pose proof (manual_upsertItem_eq (Manual.current s) s) as Hup.
    cbv zeta in Hup. rewrite Hup.
    destruct (String.eqb_spec (id (Manual.current s)) ""); [done |].
    cbn. rewrite with_id_id. reflexivity. }
  split.
  - intros Hempty. unfold Manual.handleSave, Manual.canSave.
    rewrite Hempty. reflexivity.
  - intros Hne. cbv zeta. rewrite (Hsave st Hne). cbn.
    do 5 (split; [reflexivity |]).
    rewrite Hsave by (cbn; exact Hne). cbn.
    apply upserted_idempotent.
Qed.

Lemma manual_nodup_step (st : Manual.App) (e : Manual.Event) :
  Manual.savedItems st = Manual.savedItemsRef st →
  Manual.savedItemsRef (mstep st e) = Manual.savedItemsRef st
  ∨ (∃ i, Manual.savedItemsRef (mstep st e)
          = filter (fun x => id x ≠ i) (Manual.savedItemsRef st))
  ∨ (∃ next, Manual.savedItemsRef (mstep st e)
             = upserted (Manual.savedItemsRef st) (id next) next).
Proof.
  intros Hsync. destruct e; cbn; try (left; reflexivity).
  - left. unfold Manual.handleLoad. destruct (find _ _); reflexivity.
  - right. left. exists id0. unfold Manual.handleDelete. rewrite Hsync.
    destruct (String.eqb _ _); reflexivity.
  - unfold Manual.handleSave. destruct (negb _); [left; reflexivity |].
    pose proof (manual_upsertItem_eq (Manual.current st) st) as Hup.
    cbv zeta in Hup. rewrite Hup. right. right.
    eexists (with_id _ (Manual.current st)). reflexivity.
  - unfold Manual.handleAddNew. destruct (negb _); [left; reflexivity |].
    pose proof (manual_upsertItem_eq (Manual.newItemDraft st) st) as Hup.
    cbv zeta in Hup. rewrite Hup. right. right.
    eexists (with_id _ (Manual.newItemDraft st)). reflexivity.
Qed.

Lemma manual_consistent_step (loaded : list Item) (st : Manual.App)
    (e : Manual.Event) :
  Manual.Consistent loaded st → Manual.Consistent loaded (mstep st e).
Proof using nanoid_nonempty.
  intros [Hsync Hstored Hdraft Hanchor Hadded].
  assert (∀ item, id item ≠ "" ∨ id item = "" →
            let id_ := if String.eqb (id item) "" then nanoid (Manual.nextId st)
                       else id item in
            id_ ≠ ""
            ∧ Forall (fun x => x ∈ loaded ∨ id x ≠ "")
                (upserted (Manual.savedItemsRef st) id_ (with_id id_ item))
            ∧ id_ ∈ map id (upserted (Manual.savedItemsRef st) id_
                              (with_id id_ item))) as Hup.
  { intros item _. cbv zeta.
    set (id_ := if String.eqb (id item) "" then nanoid (Manual.nextId st)
                else id item).
    assert (id_ ≠ "") as Hne.
    { unfold id_. destruct (String.eqb_spec (id item) "");
        [apply nanoid_nonempty | done]. }
    clearbody id_. split; [exact Hne |]. split.
    - unfold upserted. destruct (existsb _ _).
      + apply Forall_fmap. eapply Forall_impl; [exact Hadded |]. cbn.
        intros x Hx. destruct (String.eqb _ _); [right; exact Hne | exact Hx].
      + apply Forall_app. split; [exact Hadded |].
        apply Forall_singleton. right. exact Hne.
    - apply (upserted_identifiers (Manual.savedItemsRef st) (with_id id_ item)). }
  destruct e; cbn.
  1-6: constructor; cbn; try done; try (destruct field; cbn; done).
  - unfold Manual.handleLoad.
    destruct (find _ _) as [item |] eqn:Hfind; constructor; cbn; try done.
    intros _. apply find_some in Hfind as [Hin _].
    apply list_elem_of_fmap. exists item. split; [done | apply list_elem_of_In, Hin].
  - unfold Manual.handleDelete.
    assert (Forall (fun x => x ∈ loaded ∨ id x ≠ "")
              (filter (fun item => id item ≠ id0) (Manual.savedItems st))) as Hf.
    { apply Forall_forall. intros x Hx. apply list_elem_of_filter in Hx as [_ Hx].
      rewrite Hsync in Hx. rewrite Forall_forall in Hadded. auto. }
    destruct (String.eqb_spec (id (Manual.current st)) id0) as [Heq | Hne];
      constructor; cbn; try done; try (rewrite last_snoc; reflexivity).
    intros Hcur. specialize (Hanchor Hcur).
    apply list_elem_of_fmap in Hanchor as (x & Hx & Hin).
    apply list_elem_of_fmap. exists x. split; [exact Hx |].
    apply list_elem_of_filter. split; [congruence | exact Hin].
  - constructor; cbn; done.
  - constructor; cbn; done.
  - unfold Manual.handleSave. destruct (negb _); [constructor; done |].
    pose proof (manual_upsertItem_eq (Manual.current st) st) as Heq.
    destruct (Hup (Manual.current st)) as (Hne & Hall & Hin);
      [destruct (String.eqb_spec (id (Manual.current st)) ""); auto |].
    cbv zeta in Heq, Hne, Hall, Hin. rewrite Heq.
    constructor; cbn; try done. rewrite last_snoc. reflexivity.
  - unfold Manual.handleAddNew. destruct (negb _); [constructor; done |].
    pose proof (manual_upsertItem_eq (Manual.newItemDraft st) st) as Heq.
    destruct (Hup (Manual.newItemDraft st)) as (Hne & Hall & Hin);
      [destruct (String.eqb_spec (id (Manual.newItemDraft st)) ""); auto |].
    cbv zeta in Heq, Hne, Hall, Hin. rewrite Heq.
    constructor; cbn; try done. rewrite last_snoc. reflexivity.
Qed.

Lemma manual_reachable_consistent (loaded : list Item) (st : Manual.App) :
  mreachable loaded st → Manual.Consistent loaded st.
Proof using nanoid_nonempty.
  induction 1 as [| st e _ IH].
  - constructor; cbn; try done.
    apply Forall_forall. intros x Hx. left. exact Hx.
  - apply manual_consistent_step, IH.
Qed.

(** X19. [handleAddNew] does nothing while the dialog draft is blank.
    Otherwise, in a session, the dialog draft never has an identifier, so
    the created Item receives the next generated identifier, becomes the
    Draft, and is upserted into the Collection, at its end when no saved
    Item has that identifier; the Collection is written once. *)
Theorem manual_add_new (loaded : list Item) (st : Manual.App) :
  mreachable loaded st →
  (isBlankNewItem (Manual.newItemDraft st) = true → mhandleAddNew st = st)
  ∧ (isBlankNewItem (Manual.newItemDraft st) = false →
       let st' := mhandleAddNew st in
       let id_ := nanoid (Manual.nextId st) in
       let next := with_id id_ (Manual.newItemDraft st) in
       Manual.current st' = next
       ∧ Manual.nextId st' = S (Manual.nextId st)
       ∧ Manual.savedItemsRef st' = upserted (Manual.savedItemsRef st) id_ next
       ∧ (id_ ∉ map id (Manual.savedItemsRef st) →
            Manual.savedItemsRef st' = Manual.savedItemsRef st ++ [next])
       ∧ Manual.savedItems st' = Manual.savedItemsRef st'
       ∧ Manual.writes st' = Manual.writes st ++ [Manual.savedItemsRef st']).
Proof using nanoid_nonempty.
  intros Hreach.
  pose proof (manual_reachable_consistent loaded st Hreach) as [_ _ Hdraft _ _].
  split.
  - intros Hblank. unfold Manual.handleAddNew, Manual.canCreate.
    rewrite Hblank. reflexivity.
  - intros Hblank. cbv zeta. unfold Manual.handleAddNew, Manual.canCreate.
    rewrite Hblank. cbn [negb].
    pose proof (manual_upsertItem_eq (Manual.newItemDraft st) st) as Heq.
    cbv zeta in Heq. rewrite Hdraft in Heq. cbn [String.eqb] in Heq.
    rewrite Heq. cbn. do 3 (split; [reflexivity |]).
    split; [| done].
    intros Hnot. unfold upserted.
    rewrite existsb_id_false; [reflexivity |].
    intros s Hs Hid. apply Hnot. rewrite <- Hid.
    apply list_elem_of_fmap. exists s. done.
Qed.

(** X20. In every state of a manual session the rendered Collection, the
    ref and the durable medium agree (the Collection is the last write, or
    the loaded one when nothing was written), the dialog draft is
    unanchored, and no unanchored Item was ever added: every saved Item that
    has an empty identifier was loaded with it. *)
Theorem manual_storage_in_sync (loaded : list Item) (st : Manual.App) :
  mreachable loaded st →
  Manual.savedItems st = Manual.savedItemsRef st
  ∧ Manual.savedItemsRef st = default loaded (last (Manual.writes st))
  ∧ id (Manual.newItemDraft st) = ""
  ∧ (∀ x, x ∈ Manual.savedItemsRef st → id x = "" → x ∈ loaded).
Proof using nanoid_nonempty.
  intros Hreach.
  pose proof (manual_reachable_consistent loaded st Hreach)
    as [Hsync Hstored Hdraft _ Hadded].
  do 3 (split; [assumption |]).
  intros x Hx Hid. rewrite Forall_forall in Hadded.
  destruct (Hadded x Hx) as [Hin | Hne]; [exact Hin | contradiction].
Qed.

(** X21. A manual session that loads a Collection without duplicate
    identifiers never holds one with duplicates. *)
Theorem manual_collection_unique_by_id (loaded : list Item) (st : Manual.App) :
  NoDup (map id loaded) → mreachable loaded st →
  NoDup (map id (Manual.savedItemsRef st)).
Proof using nanoid_nonempty.
  intros Hnd. induction 1 as [| st e Hreach IH]; [exact Hnd |].
  pose proof (manual_reachable_consistent loaded st Hreach) as [Hsync _ _ _ _].
  destruct (manual_nodup_step st e Hsync) as [-> | [[i ->] | [next ->]]].
  - exact IH.
  - eapply sublist_NoDup; [exact IH |]. apply fmap_sublist, sublist_filter.
  - apply upserted_identifiers, IH.
Qed.

(** X22. In a manual session an anchored Draft always is an Item of the
    Collection: its identifier is among the saved ones.  Hence [handleSave]
    always replaces in place: it never changes the identifiers of the
    Collection, nor its length. *)
Theorem manual_save_in_place (loaded : list Item) (st : Manual.App) :
  mreachable loaded st →
  (id (Manual.current st) ≠ "" →
     id (Manual.current st) ∈ map id (Manual.savedItems st))
  ∧ map id (Manual.savedItemsRef (mhandleSave st))
    = map id (Manual.savedItemsRef st).
Proof using nanoid_nonempty.
  intros Hreach.
  pose proof (manual_reachable_consistent loaded st Hreach)
    as [Hsync _ _ Hanchor _].
  split; [exact Hanchor |].
  unfold Manual.handleSave, Manual.canSave.
  destruct (String.eqb_spec (id (Manual.current st)) "") as [| Hne];
    [reflexivity |].
  pose proof (manual_upsertItem_eq (Manual.current st) st) as Heq.
  cbv zeta in Heq. rewrite Heq.
  destruct (String.eqb_spec (id (Manual.current st)) ""); [done |].
  cbn. rewrite with_id_id.
  apply upserted_identifiers. rewrite <- Hsync. apply Hanchor, Hne.
Qed.

End ManualProps.

(** ** Instances *)

Lemma upsertItem_identifiers_witness :
  map id (map val (savedItemsRef
            (snd (upsertItem sample_nanoid saved_mugs (mount [saved_mugs])))))
  = ["m1"].
Proof.
  destruct (upsertItem_identifiers sample_nanoid (mount [saved_mugs]) saved_mugs)
    as (Hmember & _).
  apply Hmember. vm_compute. left.
Defined.

Lemma upsertItem_then_find_witness :
  let r := upsertItem sample_nanoid named_draft (mount []) in
  current (handleLoad (id (val (fst r))) (snd r)) = fst r.
Proof.
  cbv zeta.
  destruct (upsertItem_then_find sample_nanoid sample_Number (mount [])
              named_draft) as (_ & Hload).
  apply (Hload []). apply reach_mount.
Defined.

Lemma handleDelete_removes_witness :
  let st := mount [saved_mugs] in
  id (val (current st)) ≠ "m1"
  ∧ current (handleDelete "m1" st) = current st.
Proof.
  cbv zeta. split; [discriminate |].
  destruct (handleDelete_removes (mount [saved_mugs]) "m1")
    as (_ & _ & _ & _ & _ & _ & Hkeep).
  apply Hkeep. discriminate.
Defined.

Lemma collection_unique_by_id_witness :
  NoDup (map id (map val (savedItemsRef
           (step sample_nanoid sample_Number (mount [saved_mugs])
              (Delete "zz"))))).
Proof.
  apply (collection_unique_by_id sample_nanoid sample_Number [saved_mugs]).
  - apply NoDup_singleton.
  - apply reach_step, reach_mount.
Defined.

Lemma storage_in_sync_witness :
  let st := step sample_nanoid sample_Number (mount [saved_mugs]) (Delete "m1") in
  map val (savedItemsRef st) = default [saved_mugs] (last (writes st)).
Proof.
  cbv zeta.
  apply (storage_in_sync sample_nanoid sample_Number [saved_mugs]).
  apply reach_step, reach_mount.
Defined.

Lemma elapse_additive_witness :
  let st := step sample_nanoid sample_Number (mount []) (NameChange "Mugs") in
  elapse sample_nanoid 10000 (elapse sample_nanoid 5000 st)
  = elapse sample_nanoid (5000 + 10000) st.
Proof.
  cbv zeta.
  apply (elapse_additive sample_nanoid sample_Number []).
  apply reach_step, reach_mount.
Defined.

Lemma edit_is_persisted_witness :
  let st1 := step sample_nanoid sample_Number (mount []) (NameChange "Mugs") in
  id (val (current st1)) ≠ "".
Proof.
  cbv zeta.
  apply (edit_is_persisted sample_nanoid sample_Number sample_nanoid_nonempty
           [] (mount []) (NameChange "Mugs") 15000).
  - apply reach_mount.
  - reflexivity.
  - unfold quietWindow. lia.
Defined.



Lemma load_then_wait_witness :
  let st := mount [saved_mugs] in
  map val (savedItemsRef (elapse sample_nanoid 15000 (handleLoad "m1" st)))
  = [saved_mugs].
Proof.
  cbv zeta.
  apply (load_then_wait sample_nanoid sample_Number [saved_mugs]
           (mount [saved_mugs]) "m1" (mkObj 1 saved_mugs) 15000).
  - apply reach_mount.
  - apply NoDup_singleton.
  - reflexivity.
  - cbn. lia.
  - discriminate.
  - unfold quietWindow. lia.
Defined.

Lemma written_items_well_formed_witness :
  wellFormed
    (val (current (step sample_nanoid sample_Number (mount [saved_mugs])
                     (ProfitChange "7")))).
Proof.
  apply (written_items_well_formed sample_nanoid sample_Number
           sample_nanoid_nonempty [saved_mugs]).
  - apply Forall_singleton. split; [reflexivity | intros []; discriminate].
  - apply reach_step, reach_mount.
Defined.

Lemma loadSavedItems_round_trip_witness :
  loadSavedItems saved_mugs_parse (Some "x") = map itemObj [saved_mugs].
Proof.
  apply (loadSavedItems_round_trip saved_mugs_parse "x" [saved_mugs]).
  - discriminate.
  - reflexivity.
  - apply Forall_singleton. reflexivity.
Defined.

Lemma loadSavedItems_null_element_witness :
  loadSavedItems null_element_parse (Some "x") = [].
Proof.
  apply (loadSavedItems_null_element null_element_parse "x"
           [JObj (itemObj saved_mugs); JNull]).
  - reflexivity.
  - right. left.
Defined.

Lemma manual_edits_write_nothing_witness :
  Manual.writes
    (Manual.run sample_nanoid sample_Number (Manual.mount [saved_mugs])
       [Manual.Load "m1"; Manual.NameChange "Cups"])
  = [].
Proof.
  apply (manual_edits_write_nothing sample_nanoid sample_Number
           (Manual.mount [saved_mugs])
           [Manual.Load "m1"; Manual.NameChange "Cups"]).
  repeat constructor.
Defined.

Lemma manual_save_witness :
  let st := Manual.handleLoad "m1" (Manual.mount [saved_mugs]) in
  id (Manual.current st) ≠ ""
  ∧ Manual.current (Manual.handleSave sample_nanoid st) = Manual.current st.
Proof.
  cbv zeta. split; [discriminate |].
  destruct (manual_save sample_nanoid
              (Manual.handleLoad "m1" (Manual.mount [saved_mugs])))
    as (_ & Hanchored).
  apply Hanchored. discriminate.
Defined.

Lemma manual_add_new_witness :
  let st := Manual.handleNewNameChange "Mugs" (Manual.mount []) in
  isBlankNewItem (Manual.newItemDraft st) = false
  ∧ Manual.current (Manual.handleAddNew sample_nanoid st)
    = with_id "i0" named_draft.
Proof.
  cbv zeta. split; [reflexivity |].
  destruct (manual_add_new sample_nanoid sample_Number sample_nanoid_nonempty
              [] (Manual.handleNewNameChange "Mugs" (Manual.mount [])))
    as (_ & Hcreate).
  - apply (Manual.reach_step _ _ _ _ (Manual.NewNameChange "Mugs")),
      Manual.reach_mount.
  - apply Hcreate. reflexivity.
Defined.

Lemma manual_storage_in_sync_witness :
  let st := Manual.step sample_nanoid sample_Number (Manual.mount [saved_mugs])
              (Manual.Delete "m1") in
  Manual.savedItems st = Manual.savedItemsRef st.
Proof.
  cbv zeta.
  apply (manual_storage_in_sync sample_nanoid sample_Number
           sample_nanoid_nonempty [saved_mugs]).
  apply Manual.reach_step, Manual.reach_mount.
Defined.

Lemma manual_collection_unique_by_id_witness :
  NoDup (map id (Manual.savedItemsRef
                   (Manual.step sample_nanoid sample_Number
                      (Manual.mount [saved_mugs]) Manual.AddNew))).
Proof.
  apply (manual_collection_unique_by_id sample_nanoid sample_Number
           sample_nanoid_nonempty [saved_mugs]).
  - apply NoDup_singleton.
  - apply Manual.reach_step, Manual.reach_mount.
Defined.

Lemma manual_save_in_place_witness :
  let st := Manual.step sample_nanoid sample_Number (Manual.mount [saved_mugs])
              (Manual.Load "m1") in
  map id (Manual.savedItemsRef (Manual.handleSave sample_nanoid st))
  = map id (Manual.savedItemsRef st).
Proof.
  cbv zeta.
  apply (manual_save_in_place sample_nanoid sample_Number
           sample_nanoid_nonempty [saved_mugs]).
  apply Manual.reach_step, Manual.reach_mount.
Defined.
